(** * phip.gampois: the Gamma-Poisson background model of phip-stat

    A shallow embedding of [src/phip/gampois.py] and the properties its
    specification states about it.

    Numbers.  The program computes on IEEE binary64 values.  They are
    modelled by [num]: a real number, or one of the special values
    +inf, -inf and NaN, with the IEEE rules for the special values and exact
    real arithmetic on the finite ones (rounding, overflow, underflow and
    the sign of zero are abstracted away).  A count array is an array of such
    values too; adding one to a count is exact in the program as long as the
    count stays below 2^53, whether the array holds int64 or float64.  The
    theorems that depend on exact arithmetic say so and bound the sizes of
    their inputs accordingly.

    Library functions.  [np.log], [np.exp], [np.log1p], [np.log10] and
    [np.logaddexp] are written out on [num].  [scipy.special.gammaln],
    [scipy.optimize.minimize] and [scipy.stats.scoreatpercentile] are
    parameters of the development; the only fact used about [gammaln] is its
    value at the positive integers, Gamma(n+1) = n!.

    Loops.  [poisson_logsf] is a [while True] loop; it is embedded with a
    fuel argument and the outcome [Timeout] when the fuel runs out. *)

From Stdlib Require Import String.
From Stdlib Require Import Reals Lra Lia List Bool ZArith QArith Qreals.
Import ListNotations.
Local Open Scope R_scope.

(* ================================================================= *)
(** ** Numbers *)

Inductive num : Type :=
| Fin (r : R)
| PInf
| NInf
| NaN.

Definition Rltb (a b : R) : bool := if Rlt_dec a b then true else false.
Definition Reqb (a b : R) : bool := if Req_dec_T a b then true else false.

Definition of_nat (n : nat) : num := Fin (INR n).

Definition is_finite (a : num) : bool :=
  match a with Fin _ => true | _ => false end.

Definition is_inf (a : num) : bool :=
  match a with PInf | NInf => true | _ => false end.

(** The infinity with the sign of [x]; zero counts as positive. *)
Definition inf_signed (x : R) : num := if Rltb x 0 then NInf else PInf.

Definition fneg (a : num) : num :=
  match a with
  | Fin x => Fin (- x)
  | PInf => NInf
  | NInf => PInf
  | NaN => NaN
  end.

Definition fadd (a b : num) : num :=
  match a, b with
  | NaN, _ | _, NaN => NaN
  | Fin x, Fin y => Fin (x + y)
  | PInf, NInf | NInf, PInf => NaN
  | PInf, _ | _, PInf => PInf
  | NInf, _ | _, NInf => NInf
  end.

Definition fsub (a b : num) : num := fadd a (fneg b).

Definition fmul (a b : num) : num :=
  match a, b with
  | NaN, _ | _, NaN => NaN
  | Fin x, Fin y => Fin (x * y)
  | Fin x, PInf | PInf, Fin x => if Reqb x 0 then NaN else inf_signed x
  | Fin x, NInf | NInf, Fin x => if Reqb x 0 then NaN else fneg (inf_signed x)
  | PInf, PInf | NInf, NInf => PInf
  | PInf, NInf | NInf, PInf => NInf
  end.

Definition fdiv (a b : num) : num :=
  match a, b with
  | NaN, _ | _, NaN => NaN
  | Fin x, Fin y =>
      if Reqb y 0 then (if Reqb x 0 then NaN else inf_signed x)
      else Fin (x / y)
  | Fin _, _ => Fin 0
  | PInf, Fin y => inf_signed y
  | NInf, Fin y => fneg (inf_signed y)
  | _, _ => NaN
  end.

(** [a < b]; every comparison with NaN is false. *)
Definition flt (a b : num) : bool :=
  match a, b with
  | NaN, _ | _, NaN => false
  | Fin x, Fin y => Rltb x y
  | _, NInf => false
  | NInf, _ => true
  | PInf, _ => false
  | Fin _, PInf => true
  end.

Definition fgt (a b : num) : bool := flt b a.

Definition feq (a b : num) : bool :=
  match a, b with
  | Fin x, Fin y => Reqb x y
  | PInf, PInf | NInf, NInf => true
  | _, _ => false
  end.

Definition fle (a b : num) : bool := flt a b || feq a b.

(** [np.absolute]. *)
Definition fabs (a : num) : num :=
  match a with
  | Fin x => Fin (Rabs x)
  | PInf | NInf => PInf
  | NaN => NaN
  end.

(** Sum of an array, [ndarray.sum]. *)
Definition fsum (l : list num) : num := fold_left fadd l (Fin 0).

(* ================================================================= *)
(** ** numpy's elementary functions *)

Module np.

Definition log (a : num) : num :=
  match a with
  | Fin x => if Rltb 0 x then Fin (ln x) else if Reqb x 0 then NInf else NaN
  | PInf => PInf
  | NInf | NaN => NaN
  end.

Definition log10 (a : num) : num :=
  match a with
  | Fin x =>
      if Rltb 0 x then Fin (ln x / ln 10)
      else if Reqb x 0 then NInf else NaN
  | PInf => PInf
  | NInf | NaN => NaN
  end.

Definition exp (a : num) : num :=
  match a with
  | Fin x => Fin (Rtrigo_def.exp x)
  | PInf => PInf
  | NInf => Fin 0
  | NaN => NaN
  end.

Definition log1p (a : num) : num :=
  match a with
  | Fin x =>
      if Rltb (-1) x then Fin (ln (1 + x))
      else if Reqb x (-1) then NInf else NaN
  | PInf => PInf
  | NInf | NaN => NaN
  end.

(** [np.logaddexp], after numpy's [npy_logaddexp]:
<<
    if (x == y) return x + LOGE2;
    tmp = x - y;
    if (tmp > 0)       return x + log1p(exp(-tmp));
    else if (tmp <= 0) return y + log1p(exp(tmp));
    else               return tmp;        (NaN)
>> *)
Definition logaddexp (x y : num) : num :=
  if feq x y then fadd x (Fin (ln 2))
  else
    let tmp := fsub x y in
    if fgt tmp (Fin 0) then fadd x (log1p (exp (fneg tmp)))
    else if fle tmp (Fin 0) then fadd y (log1p (exp tmp))
    else tmp.

(** [np.inf]. *)
Definition inf : num := PInf.

(** [np.finfo(np.float64).tiny], the smallest positive normal double. *)
Definition tiny : num := Fin (/ 2 ^ 1022).

(** [np.nextafter(0, 1)], the smallest positive double. *)
Definition nextafter_0_1 : num := Fin (/ 2 ^ 1074).

(** Elementwise binary operation on two arrays of one shape. *)
Fixpoint map2 {A B C : Type} (f : A -> B -> C) (l : list A) (l' : list B)
  : list C :=
  match l, l' with
  | a :: t, b :: t' => f a b :: map2 f t t'
  | _, _ => []
  end.

End np.

(* ================================================================= *)
(** ** Outcomes of a call *)

Inductive exn : Type :=
| IndexError
| ValueError.

Inductive run (A : Type) : Type :=
| Done (a : A)
| Raised (e : exn)
| Timeout.

Arguments Done {A} a.
Arguments Raised {A} e.
Arguments Timeout {A}.

Definition bind {A B : Type} (m : run A) (k : A -> run B) : run B :=
  match m with
  | Done a => k a
  | Raised e => Raised e
  | Timeout => Timeout
  end.

Notation "x <- m ;; k" := (bind m (fun x => k))
  (at level 61, m at next level, right associativity).

(* ================================================================= *)
(** ** Tables *)

(** A [pandas.DataFrame]: row labels, column labels and the cells by row. *)
Record DataFrame : Type := mkDataFrame {
  index : list string;
  columns : list string;
  values : list (list num)
}.


(** The shape test of [pd.DataFrame(data, index=..., columns=...)] on the
    array [np.asarray(rows)].  Of at least one row the array is
    two-dimensional and has to fit the labels.  Of no row at all it is
    [np.asarray([])], one-dimensional of length 0, which pandas reads as a
    block of 0 rows and 1 column. *)
Definition frame_shape_ok (data : list (list num)) (index columns : list string)
  : bool :=
  match data with
  | [] => Nat.eqb (List.length index) 0 && Nat.eqb (List.length columns) 1
  | _ :: _ =>
      Nat.eqb (List.length data) (List.length index) &&
      forallb (fun row => Nat.eqb (List.length row) (List.length columns)) data
  end.

(** [pd.DataFrame(data=np.asarray(rows), index=index, columns=columns)];
    pandas raises [ValueError] when the shape of the data does not fit the
    labels. *)
Definition pd_DataFrame (data : list (list num)) (index columns : list string)
  : run DataFrame :=
  if frame_shape_ok data index columns
  then Done (mkDataFrame index columns data)
  else Raised ValueError.

(** [scipy.optimize.OptimizeResult], the fields that matter here. *)
Record OptimizeResult : Type := mkOptimizeResult {
  opt_x : num * num;
  opt_success : bool
}.

(** A box constraint of [minimize]: lower bound and optional upper bound. *)
Definition bound : Type := (num * option num)%type.

(* ================================================================= *)
(** ** The program *)

(** The convergence tolerance of [poisson_logsf], [0.0001]. *)
Definition tolerance : num := Fin (1 / 10000).

(** [np.ma.masked_greater(a, upper_bound)]: the mask of one cell. *)
Definition masked_greater (upper_bound : num) (c : num) : bool :=
  fgt c upper_bound.

(** [masked.filled(0)] on one row. *)
Definition filled0 (upper_bound : num) (row : list num) : list num :=
  map (fun c => if masked_greater upper_bound c then Fin 0 else c) row.

(** [np.ma.sum(masked, axis=1).data] on one row: numpy sums the data with
    the masked cells filled by zero. *)
Definition ma_sum (upper_bound : num) (row : list num) : num :=
  fsum (filled0 upper_bound row).

(** [(~np.ma.getmaskarray(masked)).sum(axis=1)] on one row. *)
Definition unmasked_size (upper_bound : num) (row : list num) : nat :=
  List.length (filter (fun c => negb (masked_greater upper_bound c)) row).

(** The masked sum of one row times 1.0 over the count of its unmasked
    cells, [dsum * 1. / cnt] in [MaskedArray.mean]: numpy's masked division
    masks an entry whose quotient is not finite and leaves the numerator as
    its datum.  So a row without unmasked cells gets the datum 0. *)
Definition ma_mean (upper_bound : num) (row : list num) : num :=
  let dsum := fmul (ma_sum upper_bound row) (Fin 1) in
  let q := fdiv dsum (of_nat (unmasked_size upper_bound row)) in
  if is_finite q then q else dsum.

(** The domain test of numpy's masked division, [_DomainSafeDivide]:
    [absolute(a) * tiny >= absolute(b)]; where it holds the quotient is
    masked. *)
Definition safe_divide_domain (a b : num) : bool :=
  fle (fabs b) (fmul (fabs a) np.tiny).

(** The datum of the mean of one row when some cell of the table is masked:
    [MaskedArray.mean] divides the masked sum by the count with the masked
    division, which leaves the numerator where the domain test holds or the
    quotient is not finite. *)
Definition masked_mean_data (upper_bound : num) (row : list num) : num :=
  let dsum := fmul (ma_sum upper_bound row) (Fin 1) in
  let cnt := of_nat (unmasked_size upper_bound row) in
  if safe_divide_domain dsum cnt then dsum else ma_mean upper_bound row.

(** The datum of the mean of one row when no cell of the table is masked:
    [masked_greater] shrinks the mask to [nomask] and [MaskedArray.mean]
    takes [ndarray.mean], whose division of the sum by the number of columns
    is wrapped by the masked array: where the domain test holds the datum is
    filled with 1. *)
Definition nomask_mean_data (row : list num) : num :=
  let s := fsum row in
  let n := of_nat (List.length row) in
  if safe_divide_domain s n then Fin 1 else fdiv s n.

(** [np.ma.masked_greater(a, upper_bound).mask] is not [nomask]. *)
Definition any_masked (upper_bound : num) (rows : list (list num)) : bool :=
  existsb (existsb (masked_greater upper_bound)) rows.

(** [np.ma.mean(np.ma.masked_greater(a, upper_bound), axis=1).data] *)
Definition trimmed_means (upper_bound : num) (rows : list (list num))
  : list num :=
  if any_masked upper_bound rows
  then map (masked_mean_data upper_bound) rows
  else map nomask_mean_data rows.

Section Program.

(** [scipy.special.gammaln]. *)
Variable gammaln : num -> num.

(** [scipy.optimize.minimize(fun, x0, bounds=...)]. *)
Variable minimize :
  (num * num -> num) -> num * num -> list bound -> OptimizeResult.

(** [scipy.stats.scoreatpercentile(a, per)] on the flattened array. *)
Variable scoreatpercentile : list num -> num -> num.

(** [counts * np.log(rate) - rate - sp.special.gammaln(counts + 1)] *)
Definition log_pmf1 (rate : num) (c : num) : num :=
  fsub (fsub (fmul c (np.log rate)) rate) (gammaln (fadd c (Fin 1))).

(** The same on an array, elementwise. *)
Definition log_pmf (rate : num) (counts : list num) : list num :=
  map (log_pmf1 rate) counts.

(** The [while True] loop of [poisson_logsf]. *)
Fixpoint poisson_loop (fuel : nat) (rate : num) (counts accum : list num)
  : run (list num) :=
  match fuel with
  | O => Timeout
  | S fuel' =>
      let counts := map (fun c => fadd c (Fin 1)) counts in
      let next_terms := log_pmf rate counts in
      let new := np.map2 np.logaddexp accum next_terms in
      if forallb (fun d => flt d tolerance) (np.map2 fsub new accum)
      then Done new
      else poisson_loop fuel' rate counts new
  end.

Definition poisson_logsf (fuel : nat) (counts : list num) (rate : num)
  : run (list num) :=
  let counts := map (fun c => fadd c (Fin 1)) counts in
  let accum := log_pmf rate counts in
  poisson_loop fuel rate counts accum.

(** The statistics [m], [s] and [sl] of [fit_gamma]. *)
Definition gamma_stats (x : list num) : num * num * num :=
  let m := of_nat (List.length x) in
  let s := fsum (filter (fun v => fgt v (Fin 0)) x) in
  let sl := fsum (map np.log (filter (fun v => fgt v (Fin 0)) x)) in
  (m, s, sl).

(** The closure [ll] of [fit_gamma]. *)
Definition ll (m s sl : num) (x : num * num) : num :=
  fmul (Fin (-1))
    (fsub
       (fadd
          (fsub (fmul (fmul m (fst x)) (np.log (snd x)))
                (fmul m (gammaln (fst x))))
          (fmul (fsub (fst x) (Fin 1)) sl))
       (fmul (snd x) s)).

Definition fit_gamma_x0 : num * num := (Fin 2, Fin 1).

Definition fit_gamma_bounds : list bound :=
  [(np.nextafter_0_1, None); (np.nextafter_0_1, None)].

Definition fit_gamma (x : list num) : run (num * num) :=
  let '(m, s, sl) := gamma_stats x in
  let param := minimize (ll m s sl) fit_gamma_x0 fit_gamma_bounds in
  let '(alpha, beta) := opt_x param in
  Done (alpha, beta).

Definition gamma_poisson_posterior_rates
    (counts : DataFrame) (alpha beta upper_bound : num) : list num :=
  map (fun row =>
         fdiv (fadd alpha (ma_sum upper_bound row))
              (fadd beta (of_nat (unmasked_size upper_bound row))))
      (values counts).

(** [-np.log10(np.finfo(np.float64).tiny)] *)
Definition mlxp_ceiling : num := fneg (np.log10 np.tiny).

(** [mlxp.replace(np.inf, ceiling)] on one cell. *)
Definition replace_inf (v : num) : num :=
  if feq v np.inf then mlxp_ceiling else v.

(** The [for i in range(counts.shape[0])] loop of [mlxp_gamma_poisson],
    from row [i] on. *)
Fixpoint mlxp_rows (fuel : nat) (rows : list (list num)) (rates : list num)
    (i : nat) : run (list (list num)) :=
  match rows with
  | [] => Done []
  | row :: rest =>
      match nth_error rates i with
      | None => Raised IndexError
      | Some rate =>
          logsf <- poisson_logsf fuel row rate ;;
          tl <- mlxp_rows fuel rest rates (S i) ;;
          Done (map (fun v => fdiv (fneg v) (np.log (Fin 10))) logsf :: tl)
      end
  end.

Definition mlxp_gamma_poisson (fuel : nat) (counts : DataFrame)
    (rates : list num) : run DataFrame :=
  mlxp <- mlxp_rows fuel (values counts) rates 0 ;;
  df <- pd_DataFrame mlxp (index counts) (columns counts) ;;
  Done (mkDataFrame (index df) (columns df)
          (map (map replace_inf) (values df))).

Definition default_trim_percentile : num := Fin (999 / 10).

Definition gamma_poisson_model (fuel : nat) (counts : DataFrame)
    (trim_percentile : num)
  : run (num * num * list num * DataFrame) :=
  let upper_bound :=
    scoreatpercentile (List.concat (values counts)) trim_percentile in
  let trimmed_means := trimmed_means upper_bound (values counts) in
  ab <- fit_gamma trimmed_means ;;
  let '(alpha, beta) := ab in
  let background_rates :=
    gamma_poisson_posterior_rates counts alpha beta upper_bound in
  mlxp <- mlxp_gamma_poisson fuel counts background_rates ;;
  Done (alpha, beta, background_rates, mlxp).

End Program.

(* ================================================================= *)
(** ** Definitions used to state the properties *)

Section Series.

Variable gammaln : num -> num.

(** The count after [j] executions of [counts += 1]. *)
Definition bump (j : nat) (c : num) : num :=
  Nat.iter j (fun c => fadd c (Fin 1)) c.

(** The log-PMF terms for k = count+1 through count+1+j. *)
Definition pmf_terms (rate c : num) (j : nat) : list num :=
  map (fun t => log_pmf1 gammaln rate (bump (S t) c)) (seq 0 (S j)).

(** Log-sum-exp of a sequence of terms, accumulated from the left. *)
Definition logsumexp (l : list num) : num :=
  match l with
  | [] => NInf
  | a :: t => fold_left np.logaddexp t a
  end.

(** The running log-sum of the element [c] after [i] loop iterations. *)
Fixpoint running (rate c : num) (i : nat) : num :=
  match i with
  | O => log_pmf1 gammaln rate (bump 1 c)
  | S i' =>
      np.logaddexp (running rate c i')
                   (log_pmf1 gammaln rate (bump (S (S i')) c))
  end.

(** The running log-sums of all elements after [i] loop iterations: the
  array [accum] at that point. *)
Definition running_all (rate : num) (counts : list num) (i : nat)
  : list num :=
  map (fun c => running rate c i) counts.

(** The convergence test of iteration [i] on the element [c]. *)
Definition converged (rate c : num) (i : nat) : bool :=
  flt (fsub (running rate c i) (running rate c (pred i))) tolerance.

(** [np.all(new - accum < 0.0001)] in iteration [i]. *)
Definition all_converged (rate : num) (counts : list num) (i : nat) : bool :=
  forallb (fun c => converged rate c i) counts.

(** The call returns [res] out of iteration [j] of the loop, no sooner. *)
Definition returns_after (j : nat) (counts : list num) (rate : num)
    (res : list num) : Prop :=
  poisson_logsf gammaln j counts rate = Done res /\
  poisson_logsf gammaln (pred j) counts rate = Timeout.

End Series.

(** The Poisson probability mass function. *)
Definition pmfR (rate : R) (k : nat) : R :=
  exp (- rate) * rate ^ k / INR (fact k).

(** The sum of [pmfR rate k] for k = k0 through k0+i. *)
Fixpoint pmf_sum (rate : R) (k0 i : nat) : R :=
  match i with
  | O => pmfR rate k0
  | S i' => pmf_sum rate k0 i' + pmfR rate (k0 + S i')
  end.

(** A number of iterations that is enough for any counts at this rate. *)
Definition iterations_bound (rate : R) : nat :=
  Z.to_nat (up (10000 * rate)).

(** Log-Gamma as a step function that is exact at the positive integers,
    where Gamma(n+1) = n!; an instance of the parameter [gammaln]. *)
Definition gammaln_int (a : num) : num :=
  match a with
  | Fin x => Fin (ln (INR (fact (Z.to_nat (up x - 2)))))
  | PInf | NInf => PInf
  | NaN => NaN
  end.

(** The cells of a row that [masked_greater] leaves unmasked. *)
Definition unmasked (upper_bound : num) (row : list num) : list num :=
  filter (fun c => negb (masked_greater upper_bound c)) row.

(** The posterior mean of one row as the specification words it: the sum
    and the count range over the unmasked cells only. *)
Definition posterior_mean_spec (alpha beta upper_bound : num)
    (row : list num) : num :=
  fdiv (fadd alpha (fsum (unmasked upper_bound row)))
       (fadd beta (of_nat (List.length (unmasked upper_bound row)))).


(** The observation count of [fit_gamma] as the specification words it:
    the number of strictly positive entries. *)
Definition positive_count_spec (x : list num) : num :=
  of_nat (List.length (filter (fun v => fgt v (Fin 0)) x)).

(** A minimizer that gives up at once: it returns its starting point and
    reports failure; an instance of the parameter [minimize]. *)
Definition minimize_gives_up (f : num * num -> num) (x0 : num * num)
    (bounds : list bound) : OptimizeResult :=
  mkOptimizeResult x0 false.

(** One row of the significance table as the specification words it: the
    tail-probability engine on the raw counts of the row with the rate of the
    row, negated and divided by ln(10). *)
Definition significance_row (gammaln : num -> num) (fuel : nat)
    (row : list num) (rate : num) (out : list num) : Prop :=
  exists logsf,
    poisson_logsf gammaln fuel row rate = Done logsf /\
    out = map (fun v => fdiv (fneg v) (np.log (Fin 10))) logsf.

(* ----------------------------------------------------------------- *)
(** *** Running the loop on rational numbers *)

(** [x^(2^n)] by repeated squaring. *)
Fixpoint qsq_iter (n : nat) (x : Q) : Q :=
  match n with
  | O => x
  | S n' => let y := qsq_iter n' x in (y * y)%Q
  end.

(** Rational bounds of exp(0.0001) = 1.000100005000166... *)
Definition exp_tol_lo : Q := 100010000499 # 100000000000.
Definition exp_tol_hi : Q := 100010000501 # 100000000000.

(** [q^k / k!] *)
Fixpoint qpw (q : Q) (k : nat) : Q :=
  match k with
  | O => 1%Q
  | S k' => Qred (qpw q k' * q / inject_Z (Z.of_nat k))
  end.

(** The loop of [poisson_logsf] on one count at the rational rate [q], on
    the weights q^k/k! in place of the log-PMF terms: [w] is the weight of
    the last term k0+j, [W] the sum of the weights so far, [j] the number of
    iterations so far.  The result is the iteration out of which the loop
    returns and the final sum; [None] when the fuel runs out or when a test
    is too close to the tolerance for the bounds of exp(0.0001) to decide. *)
Fixpoint qloop (fuel : nat) (q : Q) (k0 : nat) (w W : Q) (j : nat)
  : option (nat * Q) :=
  match fuel with
  | O => None
  | S fuel' =>
      let w' := Qred (w * q / inject_Z (Z.of_nat (k0 + S j))) in
      let W' := Qred (W + w') in
      if Qle_bool W' (exp_tol_lo * W) then Some (S j, W')
      else if Qle_bool (exp_tol_hi * W) W' then qloop fuel' q k0 w' W' (S j)
      else None
  end.

Definition qpoisson (fuel : nat) (q : Q) (c : nat) : option (nat * Q) :=
  qloop fuel q (S c) (qpw q (S c)) (qpw q (S c)) 0.


(* ----------------------------------------------------------------- *)
(** *** Further notions *)

(** The rate is a finite number above zero, as [poisson_logsf] expects. *)
Definition positive_finite (rate : num) : bool :=
  match rate with
  | Fin r => Rltb 0 r
  | _ => false
  end.

(** The Poisson distribution function, P(X <= c). *)
Definition cdfR (rate : R) (c : nat) : R := pmf_sum rate 0 c.

(** The terms of the exponential series. *)
Definition exp_term (x : R) (i : nat) : R := / INR (fact i) * x ^ i.

(* ----------------------------------------------------------------- *)
(** *** Sizes of the inputs *)




(* ----------------------------------------------------------------- *)
(** *** The term after the window *)



(* ----------------------------------------------------------------- *)
(** *** A small table *)


(* ================================================================= *)
(** ** Basic facts on numbers *)

Lemma Rltb_true (a b : R) : a < b -> Rltb a b = true.
Proof.
  intros H. unfold Rltb.
  destruct (Rlt_dec a b); [reflexivity | contradiction].
Qed.

Lemma Rltb_false (a b : R) : b <= a -> Rltb a b = false.
Proof. intros H. unfold Rltb. destruct (Rlt_dec a b); [lra | reflexivity]. Qed.

Lemma Rltb_spec (a b : R) : Rltb a b = true <-> a < b.
Proof.
  unfold Rltb. destruct (Rlt_dec a b); split; intros; auto; discriminate.
Qed.

Lemma Reqb_true (a b : R) : a = b -> Reqb a b = true.
Proof.
  intros H. unfold Reqb.
  destruct (Req_dec_T a b); [reflexivity | contradiction].
Qed.

Lemma Reqb_false (a b : R) : a <> b -> Reqb a b = false.
Proof.
  intros H. unfold Reqb.
  destruct (Req_dec_T a b); [contradiction | reflexivity].
Qed.

Lemma fadd_0_r (a : num) : fadd a (Fin 0) = a.
Proof. destruct a; simpl; try reflexivity. f_equal. lra. Qed.

Lemma fadd_0_l (a : num) : fadd (Fin 0) a = a.
Proof. destruct a; simpl; try reflexivity. f_equal. lra. Qed.

Lemma exp_lse (a d : R) : exp a * (1 + exp d) = exp a + exp (a + d).
Proof. rewrite exp_plus. ring. Qed.

Lemma ln_lse (a d : R) : a + ln (1 + exp d) = ln (exp a + exp (a + d)).
Proof.
  rewrite <- exp_lse, ln_mult, ln_exp; auto using exp_pos.
  pose proof (exp_pos d). lra.
Qed.

(** On finite arguments [np.logaddexp] is log(exp a + exp b). *)
Lemma logaddexp_Fin (a b : R) :
  np.logaddexp (Fin a) (Fin b) = Fin (ln (exp a + exp b)).
Proof.
  unfold np.logaddexp. simpl feq. unfold Reqb.
  destruct (Req_dec_T a b) as [->|Hne].
  - simpl. f_equal. replace (exp b + exp b) with (2 * exp b) by ring.
    rewrite ln_mult, ln_exp; auto using exp_pos; lra.
  - unfold fgt, fle. simpl.
    destruct (Rlt_dec 0 (a + - b)) as [Hgt|Hle].
    + rewrite (Rltb_true 0); [|exact Hgt].
      rewrite Rltb_true by (pose proof (exp_pos (- (a + - b))); lra).
      simpl. f_equal. rewrite ln_lse. f_equal. f_equal. f_equal. lra.
    + rewrite (Rltb_false 0) by lra.
      rewrite (Rltb_true (a + - b) 0) by lra. simpl.
      rewrite Rltb_true by (pose proof (exp_pos (a + - b)); lra).
      simpl. f_equal. rewrite ln_lse. rewrite Rplus_comm.
      f_equal. f_equal. f_equal. lra.
Qed.

(* ================================================================= *)
(** ** The loop of [poisson_logsf], iteration by iteration *)

Lemma map2_map {A B C D : Type} (f : B -> C -> D) (g : A -> B) (h : A -> C)
    (l : list A) :
  np.map2 f (map g l) (map h l) = map (fun x => f (g x) (h x)) l.
Proof. induction l as [|a l IH]; simpl; [reflexivity | now rewrite IH]. Qed.

Lemma forallb_map_compose {A B : Type} (f : B -> bool) (g : A -> B)
    (l : list A) :
  forallb f (map g l) = forallb (fun x => f (g x)) l.
Proof. induction l as [|a l IH]; simpl; [reflexivity | now rewrite IH]. Qed.

Lemma map_bump (j : nat) (cs : list num) :
  map (fun c => fadd c (Fin 1)) (map (bump j) cs) = map (bump (S j)) cs.
Proof. rewrite map_map. reflexivity. Qed.

Section Loop.

Variable gammaln : num -> num.

Lemma poisson_loop_step (fuel : nat) (rate : num) (cs : list num) (i : nat) :
  poisson_loop gammaln (S fuel) rate (map (bump (S i)) cs)
    (running_all gammaln rate cs i) =
  if all_converged gammaln rate cs (S i)
  then Done (running_all gammaln rate cs (S i))
  else poisson_loop gammaln fuel rate (map (bump (S (S i))) cs)
         (running_all gammaln rate cs (S i)).
Proof.
  unfold running_all. cbn [poisson_loop]. rewrite map_bump. unfold log_pmf.
  rewrite map_map.
  rewrite (map2_map np.logaddexp (fun c => running gammaln rate c i)
             (fun c => log_pmf1 gammaln rate (bump (S (S i)) c))).
  change (fun x => np.logaddexp (running gammaln rate x i)
                     (log_pmf1 gammaln rate (bump (S (S i)) x)))
    with (fun c => running gammaln rate c (S i)).
  rewrite (map2_map fsub (fun c => running gammaln rate c (S i))
             (fun c => running gammaln rate c i)).
  rewrite forallb_map_compose. reflexivity.
Qed.

Lemma poisson_logsf_loop (fuel : nat) (cs : list num) (rate : num) :
  poisson_logsf gammaln fuel cs rate =
  poisson_loop gammaln fuel rate (map (bump 1) cs)
    (running_all gammaln rate cs 0).
Proof.
  unfold poisson_logsf, running_all, log_pmf. rewrite map_map. reflexivity.
Qed.

Lemma poisson_loop_done_inv (rate : num) (cs res : list num) :
  forall fuel i,
    poisson_loop gammaln fuel rate (map (bump (S i)) cs)
      (running_all gammaln rate cs i)
    = Done res ->
    exists j, (i < j <= i + fuel)%nat /\
      all_converged gammaln rate cs j = true /\
      (forall t, (i < t < j)%nat -> all_converged gammaln rate cs t = false) /\
      res = running_all gammaln rate cs j.
Proof.
  induction fuel as [|fuel IH]; intros i H.
  - discriminate H.
  - rewrite poisson_loop_step in H.
    destruct (all_converged gammaln rate cs (S i)) eqn:E.
    + injection H as <-. exists (S i).
      split; [lia|]. split; [exact E|]. split; [intros; lia | reflexivity].
    + apply IH in H. destruct H as (j & Hj & Hc & Hn & ->).
      exists j. split; [lia|]. split; [exact Hc|]. split; [|reflexivity].
      intros t Ht. destruct (Nat.eq_dec t (S i)) as [->|Hne]; [exact E|].
      apply Hn. lia.
Qed.

Lemma poisson_loop_exit (rate : num) (cs : list num) (j : nat) :
  all_converged gammaln rate cs j = true ->
  forall fuel i,
    (i < j <= i + fuel)%nat ->
    (forall t, (i < t < j)%nat -> all_converged gammaln rate cs t = false) ->
    poisson_loop gammaln fuel rate (map (bump (S i)) cs)
      (running_all gammaln rate cs i)
    = Done (running_all gammaln rate cs j).
Proof.
  intros Hc. induction fuel as [|fuel IH]; intros i Hj Hn.
  - lia.
  - rewrite poisson_loop_step.
    destruct (Nat.eq_dec j (S i)) as [->|Hne].
    + rewrite Hc. reflexivity.
    + rewrite Hn by lia. apply IH; [lia|]. intros t Ht. apply Hn. lia.
Qed.

Lemma poisson_loop_timeout (rate : num) (cs : list num) :
  forall fuel i,
    (forall t, (i < t <= i + fuel)%nat ->
               all_converged gammaln rate cs t = false) ->
    poisson_loop gammaln fuel rate (map (bump (S i)) cs)
      (running_all gammaln rate cs i)
    = Timeout.
Proof.
  induction fuel as [|fuel IH]; intros i Hn.
  - reflexivity.
  - rewrite poisson_loop_step, Hn by lia. apply IH.
    intros t Ht. apply Hn. lia.
Qed.

(** A call that returns does so out of exactly one iteration [j >= 1]:
    the first one in which every element passes the convergence test. *)
Lemma poisson_logsf_done_inv (fuel : nat) (cs : list num) (rate : num)
    (res : list num) :
  poisson_logsf gammaln fuel cs rate = Done res ->
  exists j, (1 <= j <= fuel)%nat /\
    all_converged gammaln rate cs j = true /\
    (forall t, (1 <= t < j)%nat -> all_converged gammaln rate cs t = false) /\
    res = map (fun c => running gammaln rate c j) cs.
Proof.
  rewrite poisson_logsf_loop. intros H.
  apply poisson_loop_done_inv in H. destruct H as (j & Hj & Hc & Hn & ->).
  exists j. split; [lia|]. split; [exact Hc|]. split; [|reflexivity].
  intros t Ht. apply Hn. lia.
Qed.

Lemma poisson_logsf_exit (fuel : nat) (cs : list num) (rate : num) (j : nat) :
  (1 <= j <= fuel)%nat ->
  all_converged gammaln rate cs j = true ->
  (forall t, (1 <= t < j)%nat -> all_converged gammaln rate cs t = false) ->
  poisson_logsf gammaln fuel cs rate
  = Done (map (fun c => running gammaln rate c j) cs).
Proof.
  intros Hj Hc Hn. rewrite poisson_logsf_loop.
  apply poisson_loop_exit; [exact Hc | lia |]. intros t Ht. apply Hn. lia.
Qed.

Lemma poisson_logsf_timeout (fuel : nat) (cs : list num) (rate : num) :
  (forall t, (1 <= t <= fuel)%nat -> all_converged gammaln rate cs t = false) ->
  poisson_logsf gammaln fuel cs rate = Timeout.
Proof.
  intros Hn. rewrite poisson_logsf_loop. apply poisson_loop_timeout.
  intros t Ht. apply Hn. lia.
Qed.

(** More fuel does not change a result. *)
Lemma poisson_logsf_fuel_mono (fuel fuel' : nat) (cs : list num) (rate : num)
    (res : list num) :
  (fuel <= fuel')%nat ->
  poisson_logsf gammaln fuel cs rate = Done res ->
  poisson_logsf gammaln fuel' cs rate = Done res.
Proof.
  intros Hle H. apply poisson_logsf_done_inv in H.
  destruct H as (j & Hj & Hc & Hn & ->).
  apply poisson_logsf_exit; auto. lia.
Qed.

Lemma returns_after_iff (j : nat) (cs : list num) (rate : num)
    (res : list num) :
  returns_after gammaln j cs rate res <->
  (1 <= j)%nat /\
  all_converged gammaln rate cs j = true /\
  (forall t, (1 <= t < j)%nat -> all_converged gammaln rate cs t = false) /\
  res = map (fun c => running gammaln rate c j) cs.
Proof.
  unfold returns_after. split.
  - intros [H1 H2]. apply poisson_logsf_done_inv in H1.
    destruct H1 as (j' & Hj' & Hc & Hn & ->).
    destruct (Nat.eq_dec j' j) as [->|Hne].
    + split; [lia|]. split; [exact Hc|]. split; [exact Hn | reflexivity].
    + rewrite (poisson_logsf_exit (pred j) cs rate j') in H2;
        [discriminate | lia | assumption | assumption].
  - intros (Hj & Hc & Hn & ->). split.
    + apply poisson_logsf_exit; auto.
    + apply poisson_logsf_timeout. intros t Ht. apply Hn. lia.
Qed.

(** The running log-sum is the log-sum-exp of the terms so far. *)
Lemma running_logsumexp (rate c : num) (i : nat) :
  running gammaln rate c i = logsumexp (pmf_terms gammaln rate c i).
Proof.
  induction i as [|i IH].
  - reflexivity.
  - cbn [running]. rewrite IH. unfold pmf_terms.
    rewrite (seq_S (S i) 0), map_app.
    change (seq 0 (S i)) with (0%nat :: seq 1 i).
    cbn [map app logsumexp]. rewrite fold_left_app. reflexivity.
Qed.

End Loop.

(* ================================================================= *)
(** ** The Poisson series in real numbers *)

Lemma pmfR_pos (rate : R) (k : nat) : 0 < rate -> 0 < pmfR rate k.
Proof.
  intros H. unfold pmfR. apply Rdiv_lt_0_compat.
  - apply Rmult_lt_0_compat; [apply exp_pos | now apply pow_lt].
  - apply lt_0_INR. apply lt_O_fact.
Qed.

Lemma pmfR_S (rate : R) (k : nat) :
  pmfR rate (S k) = pmfR rate k * rate / INR (S k).
Proof.
  unfold pmfR. rewrite fact_simpl, mult_INR. cbn [pow].
  assert (INR (S k) <> 0) by (apply not_0_INR; lia).
  assert (INR (fact k) <> 0) by (apply INR_fact_neq_0).
  field. split; assumption.
Qed.

Lemma pmf_sum_pos (rate : R) (k0 i : nat) : 0 < rate -> 0 < pmf_sum rate k0 i.
Proof.
  intros H. induction i as [|i IH]; cbn [pmf_sum].
  - now apply pmfR_pos.
  - pose proof (pmfR_pos rate (k0 + S i) H). lra.
Qed.

(** The last term of a partial sum is at most the sum. *)
Lemma pmf_sum_last (rate : R) (k0 i : nat) :
  0 < rate -> pmfR rate (k0 + i) <= pmf_sum rate k0 i.
Proof.
  intros H. destruct i as [|i]; cbn [pmf_sum].
  - rewrite Nat.add_0_r. lra.
  - pose proof (pmf_sum_pos rate k0 i H). lra.
Qed.

Lemma exp_log_pmf (rate : R) (k : nat) :
  0 < rate ->
  exp (INR k * ln rate - rate - ln (INR (fact k))) = pmfR rate k.
Proof.
  intros H. unfold pmfR, Rminus. rewrite !exp_plus.
  rewrite <- ln_pow by assumption. rewrite exp_ln by now apply pow_lt.
  rewrite exp_Ropp with (x := ln (INR (fact k))).
  rewrite exp_ln by (apply lt_0_INR, lt_O_fact).
  unfold Rdiv. ring.
Qed.

Lemma gammaln_int_fact (n : nat) :
  gammaln_int (Fin (INR n + 1)) = Fin (ln (INR (fact n))).
Proof.
  unfold gammaln_int. do 4 f_equal.
  rewrite <- (tech_up (INR n + 1) (Z.of_nat n + 2)).
  - lia.
  - rewrite plus_IZR, <- INR_IZR_INZ. lra.
  - rewrite plus_IZR, <- INR_IZR_INZ. lra.
Qed.

Section Finite.

Variable gammaln : num -> num.

(** The one fact assumed of [scipy.special.gammaln]. *)
Hypothesis gammaln_fact :
  forall n : nat, gammaln (Fin (INR n + 1)) = Fin (ln (INR (fact n))).

Lemma bump_of_nat (j n : nat) : bump j (of_nat n) = of_nat (n + j).
Proof.
  induction j as [|j IH].
  - simpl. now rewrite Nat.add_0_r.
  - change (bump (S j) (of_nat n)) with (fadd (bump j (of_nat n)) (Fin 1)).
    rewrite IH. unfold of_nat. cbn [fadd].
    rewrite <- plus_n_Sm, S_INR. reflexivity.
Qed.

Lemma log_pmf1_nat (rate : R) (k : nat) :
  0 < rate ->
  log_pmf1 gammaln (Fin rate) (of_nat k) =
  Fin (INR k * ln rate - rate - ln (INR (fact k))).
Proof.
  intros H. unfold log_pmf1, of_nat. cbn [np.log].
  rewrite Rltb_true by assumption. cbn [fadd]. rewrite gammaln_fact.
  reflexivity.
Qed.

Lemma running_nat (rate : R) (n i : nat) :
  0 < rate ->
  running gammaln (Fin rate) (of_nat n) i = Fin (ln (pmf_sum rate (S n) i)).
Proof.
  intros H. induction i as [|i IH]; cbn [running pmf_sum].
  - rewrite bump_of_nat, log_pmf1_nat by assumption.
    replace (n + 1)%nat with (S n) by lia.
    rewrite <- exp_log_pmf, ln_exp by assumption. reflexivity.
  - rewrite IH, bump_of_nat, log_pmf1_nat, logaddexp_Fin by assumption.
    replace (n + S (S i))%nat with (S n + S i)%nat by lia.
    rewrite exp_log_pmf by assumption.
    rewrite exp_ln by now apply pmf_sum_pos. reflexivity.
Qed.

(** The convergence test in terms of the partial sums. *)
Lemma converged_nat (rate : R) (n i : nat) :
  0 < rate ->
  converged gammaln (Fin rate) (of_nat n) (S i) =
  Rltb (pmf_sum rate (S n) (S i)) (exp (1 / 10000) * pmf_sum rate (S n) i).
Proof.
  intros H. unfold converged. cbn [pred]. rewrite !running_nat by assumption.
  cbn [fsub fneg fadd tolerance flt].
  pose proof (pmf_sum_pos rate (S n) i H) as Hi.
  pose proof (pmf_sum_pos rate (S n) (S i) H) as HSi.
  assert (Heq : pmf_sum rate (S n) (S i) < exp (1 / 10000) * pmf_sum rate (S n) i
                <-> ln (pmf_sum rate (S n) (S i)) + - ln (pmf_sum rate (S n) i)
                    < 1 / 10000).
  { split; intros Hlt.
    - apply ln_increasing in Hlt; [|assumption].
      rewrite ln_mult, ln_exp in Hlt; [lra | apply exp_pos | assumption].
    - apply ln_lt_inv; [assumption | |].
      + apply Rmult_lt_0_compat; [apply exp_pos | assumption].
      + rewrite ln_mult, ln_exp; [lra | apply exp_pos | assumption]. }
  unfold Rltb.
  destruct (Rlt_dec _ (1 / 10000)) as [H1|H1];
    destruct (Rlt_dec _ (exp (1 / 10000) * _)) as [H2|H2];
    try reflexivity; exfalso; tauto.
Qed.

(** From iteration [10000 * rate] on, every element passes the test. *)
Lemma converged_late (rate : R) (n i : nat) :
  0 < rate -> 10000 * rate <= INR (S i) ->
  converged gammaln (Fin rate) (of_nat n) (S i) = true.
Proof.
  intros H Hi. rewrite converged_nat by assumption. apply Rltb_true.
  cbn [pmf_sum]. replace (S n + S i)%nat with (S (S n + i)) by lia.
  rewrite pmfR_S.
  pose proof (pmf_sum_last rate (S n) i H) as Hlast.
  pose proof (pmfR_pos rate (S n + i) H) as Hpos.
  pose proof (exp_ineq1 (1 / 10000) ltac:(lra)) as Hexp.
  assert (Hk : INR (S i) <= INR (S (S n + i))) by (apply le_INR; lia).
  assert (Hk0 : 0 < INR (S (S n + i))) by (apply lt_0_INR; lia).
  assert (Hq : rate / INR (S (S n + i)) <= 1 / 10000).
  { apply Rmult_le_reg_r with (r := INR (S (S n + i))); [assumption|].
    unfold Rdiv. rewrite Rmult_assoc, Rinv_l by lra. lra. }
  assert (Hterm : pmfR rate (S n + i) * rate / INR (S (S n + i))
                  <= pmf_sum rate (S n) i * (1 / 10000)).
  { unfold Rdiv at 1. rewrite Rmult_assoc.
    apply Rmult_le_compat; try lra.
    apply Rmult_le_pos; [lra|]. apply Rlt_le, Rinv_0_lt_compat. assumption. }
  pose proof (pmf_sum_pos rate (S n) i H) as Hs.
  nra.
Qed.

Lemma iterations_bound_spec (rate : R) :
  0 < rate ->
  (1 <= iterations_bound rate)%nat /\
  10000 * rate <= INR (iterations_bound rate).
Proof.
  intros H. unfold iterations_bound.
  destruct (archimed (10000 * rate)) as [Hup _].
  assert (Hpos : (0 < up (10000 * rate))%Z).
  { apply lt_IZR. lra. }
  split.
  - lia.
  - rewrite INR_IZR_INZ, Z2Nat.id by lia. lra.
Qed.

Lemma all_converged_late (rate : R) (ns : list nat) (j : nat) :
  0 < rate -> (1 <= j)%nat -> 10000 * rate <= INR j ->
  all_converged gammaln (Fin rate) (map of_nat ns) j = true.
Proof.
  intros H Hj Hb. unfold all_converged. rewrite forallb_map_compose.
  apply forallb_forall. intros n _. destruct j as [|i]; [lia|].
  now apply converged_late.
Qed.

End Finite.

(** The first index from 1 on at which a test holds. *)
Lemma first_true (p : nat -> bool) (N : nat) :
  (1 <= N)%nat -> p N = true ->
  exists j, (1 <= j <= N)%nat /\ p j = true /\
            forall t, (1 <= t < j)%nat -> p t = false.
Proof.
  induction N as [N IH] using lt_wf_ind. intros HN Hp.
  destruct (forallb (fun t => negb (p (S t))) (seq 0 (pred N))) eqn:E.
  - exists N. split; [lia|]. split; [assumption|]. intros t Ht.
    rewrite forallb_forall in E. specialize (E (pred t)).
    rewrite Nat.succ_pred in E by lia. apply negb_true_iff, E.
    apply in_seq. lia.
  - apply not_true_iff_false in E.
    assert (Hex : exists t, (1 <= t < N)%nat /\ p t = true).
    { destruct (existsb (fun t => p (S t)) (seq 0 (pred N))) eqn:E'.
      - apply existsb_exists in E'. destruct E' as (t & Hin & Ht).
        apply in_seq in Hin. exists (S t). split; [lia | assumption].
      - exfalso. apply E. apply forallb_forall. intros t Hin.
        apply negb_true_iff. apply not_true_iff_false. intros Ht.
        apply not_true_iff_false in E'. apply E'.
        apply existsb_exists. exists t. auto. }
    destruct Hex as (t & Ht & Hpt).
    destruct (IH t ltac:(lia) ltac:(lia) Hpt) as (j & Hj & Hpj & Hmin).
    exists j. split; [lia|]. split; assumption.
Qed.

(* ================================================================= *)
(** ** The tail-probability engine: termination and result *)

Lemma all_converged_Forall (gammaln : num -> num) (rate : num)
    (cs : list num) (j : nat) :
  all_converged gammaln rate cs j = true <->
  Forall (fun c => converged gammaln rate c j = true) cs.
Proof. unfold all_converged. rewrite forallb_forall, Forall_forall. tauto. Qed.


(** A call on natural counts at a positive rate returns, out of an
    iteration no later than [iterations_bound rate]. *)
Lemma poisson_logsf_returns (gammaln : num -> num)
    (Hg : forall n : nat, gammaln (Fin (INR n + 1)) = Fin (ln (INR (fact n))))
    (ns : list nat) (rate : R) :
  0 < rate ->
  exists j, (1 <= j <= iterations_bound rate)%nat /\
    returns_after gammaln j (map of_nat ns) (Fin rate)
      (map (fun n => Fin (ln (pmf_sum rate (S n) j))) ns).
Proof.
  intros H. destruct (iterations_bound_spec rate H) as [HN Hb].
  destruct (first_true
              (all_converged gammaln (Fin rate) (map of_nat ns))
              (iterations_bound rate) HN) as (j & Hj & Hc & Hmin).
  { now apply all_converged_late. }
  exists j. split; [assumption|]. apply returns_after_iff.
  split; [lia|]. split; [assumption|]. split; [assumption|].
  rewrite map_map. apply map_ext. intros n. symmetry. now apply running_nat.
Qed.





(** C10. [poisson_logsf] performs at least one accumulation iteration and
    returns [new], the running log-sum that includes the term of the
    iteration whose convergence test ended the loop: out of iteration
    [j >= 1] the result of each element is the log-sum-exp of the j+1 log-PMF
    terms for k = count+1 through count+1+j.  On natural counts and a
    positive rate the call does return, and that value is the logarithm of the
    partial sum of the Poisson probabilities over those k. *)
Theorem poisson_logsf_returns_new (gammaln : num -> num)
    (Hg : forall n : nat, gammaln (Fin (INR n + 1)) = Fin (ln (INR (fact n))))
    (ns : list nat) (rate : R) (Hrate : 0 < rate) :
  (exists j,
      (1 <= j)%nat /\
      returns_after gammaln j (map of_nat ns) (Fin rate)
        (map (fun c => logsumexp (pmf_terms gammaln (Fin rate) c j))
             (map of_nat ns)) /\
      forall n,
        logsumexp (pmf_terms gammaln (Fin rate) (of_nat n) j)
        = Fin (ln (pmf_sum rate (S n) j))) /\
  (forall fuel counts r res,
      poisson_logsf gammaln fuel counts r = Done res ->
      exists j, (1 <= j <= fuel)%nat /\
        returns_after gammaln j counts r res /\
        res = map (fun c => logsumexp (pmf_terms gammaln r c j)) counts).
Proof.
  split.
  - destruct (poisson_logsf_returns gammaln Hg ns rate Hrate)
      as (j & Hj & Hret).
    exists j. split; [lia|]. split.
    + rewrite map_map.
      rewrite (map_ext
                 (fun n => logsumexp (pmf_terms gammaln (Fin rate) (of_nat n) j))
                 (fun n => Fin (ln (pmf_sum rate (S n) j)))); [exact Hret|].
      intros n. rewrite <- running_logsumexp. now apply running_nat.
    + intros n. rewrite <- running_logsumexp. now apply running_nat.
  - intros fuel counts r res H. apply poisson_logsf_done_inv in H.
    destruct H as (j & Hj & Hc & Hmin & ->). exists j.
    split; [assumption|]. split.
    + apply returns_after_iff. split; [lia|]. auto.
    + apply map_ext. intros c. apply running_logsumexp.
Qed.

Lemma poisson_logsf_returns_new_witness :
  0 < 2 /\
  exists j,
    (1 <= j)%nat /\
    returns_after gammaln_int j (map of_nat [0; 5]%nat) (Fin 2)
      (map (fun c => logsumexp (pmf_terms gammaln_int (Fin 2) c j))
           (map of_nat [0; 5]%nat)) /\
    forall n,
      logsumexp (pmf_terms gammaln_int (Fin 2) (of_nat n) j)
      = Fin (ln (pmf_sum 2 (S n) j)).
Proof.
  split; [lra|].
  exact (proj1 (poisson_logsf_returns_new gammaln_int gammaln_int_fact
                  [0; 5]%nat 2 ltac:(lra))).
Defined.

(* ================================================================= *)
(** ** The posterior rate estimator *)

Lemma fold_fadd_filled0 (upper_bound : num) (row : list num) (acc : num) :
  fold_left fadd (filled0 upper_bound row) acc
  = fold_left fadd (unmasked upper_bound row) acc.
Proof.
  revert acc. unfold filled0, unmasked.
  induction row as [|c row IH]; intros acc; cbn [map filter fold_left].
  - reflexivity.
  - destruct (masked_greater upper_bound c); cbn [negb fold_left].
    + rewrite fadd_0_r. apply IH.
    + apply IH.
Qed.

(** Summing with the masked cells filled by zero is summing the unmasked
    cells. *)
Lemma ma_sum_unmasked (upper_bound : num) (row : list num) :
  ma_sum upper_bound row = fsum (unmasked upper_bound row).
Proof. apply fold_fadd_filled0. Qed.

Lemma unmasked_all (upper_bound : num) (row : list num) :
  (forall c, In c row -> masked_greater upper_bound c = false) ->
  unmasked upper_bound row = row.
Proof.
  intros H. unfold unmasked. induction row as [|c row IH]; cbn [filter].
  - reflexivity.
  - rewrite (H c) by now left. cbn [negb]. f_equal. apply IH.
    intros c' Hc'. apply H. now right.
Qed.

Lemma unmasked_none (upper_bound : num) (row : list num) :
  Forall (fun c => masked_greater upper_bound c = true) row ->
  unmasked upper_bound row = [].
Proof.
  intros H. unfold unmasked. induction H as [|c row Hc _ IH]; cbn [filter].
  - reflexivity.
  - rewrite Hc. exact IH.
Qed.

Lemma posterior_rate_row (alpha beta upper_bound : num) (row : list num) :
  fdiv (fadd alpha (ma_sum upper_bound row))
       (fadd beta (of_nat (unmasked_size upper_bound row)))
  = posterior_mean_spec alpha beta upper_bound row.
Proof. unfold posterior_mean_spec. now rewrite ma_sum_unmasked. Qed.

(** C2. For every count table, prior (alpha, beta) and upper bound,
    [gamma_poisson_posterior_rates] returns per row
    (alpha + row_sum) / (beta + row_unmasked_count), the sum and the count
    ranging over the cells that are not strictly greater than the upper
    bound; on a table without masked cells that is
    (alpha + row_sum) / (beta + row_count); alpha=2, beta=1, row=[3,4,5]
    gives 14/4 = 3.5, and a cell above the bound leaves both the sum and the
    count. *)
Theorem posterior_rates_closed_form
    (counts : DataFrame) (alpha beta upper_bound : num) :
  gamma_poisson_posterior_rates counts alpha beta upper_bound
  = map (posterior_mean_spec alpha beta upper_bound) (values counts) /\
  ((forall row c, In row (values counts) -> In c row ->
                  masked_greater upper_bound c = false) ->
   gamma_poisson_posterior_rates counts alpha beta upper_bound
   = map (fun row => fdiv (fadd alpha (fsum row))
                          (fadd beta (of_nat (List.length row))))
         (values counts)) /\
  gamma_poisson_posterior_rates
    (mkDataFrame ["clone"%string] ["a"%string; "b"%string; "c"%string]
                 [[Fin 3; Fin 4; Fin 5]])
    (Fin 2) (Fin 1) (Fin 5) = [Fin (35 / 10)] /\
  gamma_poisson_posterior_rates
    (mkDataFrame ["clone"%string] ["a"%string; "b"%string; "c"%string]
                 [[Fin 3; Fin 100; Fin 4]])
    (Fin 2) (Fin 1) (Fin 5) = [Fin 3].
Proof.
  assert (Hspec : gamma_poisson_posterior_rates counts alpha beta upper_bound
                  = map (posterior_mean_spec alpha beta upper_bound)
                        (values counts)).
  { unfold gamma_poisson_posterior_rates. apply map_ext. intros row.
    apply posterior_rate_row. }
  split; [exact Hspec|]. split; [|split].
  - intros Hno. rewrite Hspec. apply map_ext_in. intros row Hrow.
    unfold posterior_mean_spec.
    rewrite unmasked_all by (intros c Hc; now apply (Hno row)). reflexivity.
  - unfold gamma_poisson_posterior_rates, ma_sum, unmasked_size, filled0,
      masked_greater, fgt, fsum, of_nat.
    cbn [values map filter flt fold_left].
    rewrite !Rltb_false by lra.
    cbn [negb List.length fold_left fadd fdiv INR].
    rewrite Reqb_false by lra. do 2 f_equal. lra.
  - unfold gamma_poisson_posterior_rates, ma_sum, unmasked_size, filled0,
      masked_greater, fgt, fsum, of_nat.
    cbn [values map filter flt fold_left].
    rewrite (Rltb_true 5 100) by lra. rewrite !Rltb_false by lra.
    cbn [negb List.length fold_left fadd fdiv INR].
    rewrite Reqb_false by lra. do 2 f_equal. lra.
Qed.

(** C3. A row in which every cell exceeds the upper bound gets the
    posterior rate alpha / beta, the prior mean: the entry of that row in
    the returned vector exists and is exactly [fdiv alpha beta]; nothing is
    raised. *)
Theorem posterior_rate_fully_masked_row
    (counts : DataFrame) (alpha beta upper_bound : num)
    (i : nat) (row : list num) :
  nth_error (values counts) i = Some row ->
  Forall (fun c => masked_greater upper_bound c = true) row ->
  nth_error (gamma_poisson_posterior_rates counts alpha beta upper_bound) i
  = Some (fdiv alpha beta).
Proof.
  intros Hrow Hall. unfold gamma_poisson_posterior_rates.
  rewrite nth_error_map, Hrow. cbn [option_map]. f_equal.
  rewrite posterior_rate_row. unfold posterior_mean_spec.
  rewrite unmasked_none by assumption. cbn [List.length fsum fold_left].
  unfold of_nat. cbn [INR]. now rewrite !fadd_0_r.
Qed.

Lemma posterior_rate_fully_masked_row_witness :
  nth_error
    (gamma_poisson_posterior_rates
       (mkDataFrame ["c1"%string; "c2"%string] ["a"%string; "b"%string]
                    [[Fin 1; Fin 2]; [Fin 10; Fin 20]])
       (Fin 2) (Fin 1) (Fin 5)) 1
  = Some (fdiv (Fin 2) (Fin 1)).
Proof.
  apply (posterior_rate_fully_masked_row
           (mkDataFrame ["c1"%string; "c2"%string] ["a"%string; "b"%string]
                        [[Fin 1; Fin 2]; [Fin 10; Fin 20]])
           (Fin 2) (Fin 1) (Fin 5) 1 [Fin 10; Fin 20]).
  - reflexivity.
  - repeat constructor; unfold masked_greater, fgt; cbn [flt];
      apply Rltb_true; lra.
Defined.

(* ================================================================= *)
(** ** The significance transformer *)

Lemma log1p_zero : np.log1p (Fin 0) = Fin (ln (1 + 0)).
Proof. unfold np.log1p. now rewrite Rltb_true by lra. Qed.

(** An element that passes the convergence test has a finite new value:
    the test [new - accum < 0.0001] fails on NaN and on +inf, and
    [np.logaddexp] does not fall below its first argument. *)
Lemma logaddexp_test_finite (a t : num) :
  flt (fsub (np.logaddexp a t) a) tolerance = true ->
  is_finite (np.logaddexp a t) = true.
Proof.
  destruct a as [x| | |], t as [y| | |];
    try (rewrite logaddexp_Fin; reflexivity);
    unfold np.logaddexp, fgt, fle, fsub, tolerance;
    cbn [feq fneg fadd flt orb np.exp];
    rewrite ?log1p_zero; cbn [np.log1p];
    repeat match goal with
      | |- context [if ?b then _ else _] => destruct b
      end;
    cbn [feq fneg fadd flt orb is_finite];
    intros H; try discriminate H; reflexivity.
Qed.

Lemma converged_finite (gammaln : num -> num) (rate c : num) (j : nat) :
  (1 <= j)%nat ->
  converged gammaln rate c j = true ->
  is_finite (running gammaln rate c j) = true.
Proof.
  intros Hj. destruct j as [|i]; [lia|]. unfold converged. cbn [pred running].
  apply logaddexp_test_finite.
Qed.

(** Whatever the input, a result of [poisson_logsf] holds finite values
    only, one per count. *)
Lemma poisson_logsf_finite (gammaln : num -> num) (fuel : nat)
    (cs : list num) (rate : num) (res : list num) :
  poisson_logsf gammaln fuel cs rate = Done res ->
  Forall (fun v => is_finite v = true) res /\ List.length res = List.length cs.
Proof.
  intros H. apply poisson_logsf_done_inv in H.
  destruct H as (j & Hj & Hc & _ & ->). split.
  - apply Forall_map. apply all_converged_Forall in Hc.
    revert Hc. apply Forall_impl. intros c. apply converged_finite. lia.
  - apply length_map.
Qed.

Lemma ln_10_pos : 0 < ln 10.
Proof. rewrite <- ln_1. apply ln_increasing; lra. Qed.

Lemma np_log_10 : np.log (Fin 10) = Fin (ln 10).
Proof. unfold np.log. now rewrite Rltb_true by lra. Qed.

Lemma mlxp_cell_Fin (x : R) :
  fdiv (fneg (Fin x)) (np.log (Fin 10)) = Fin (- x / ln 10).
Proof.
  rewrite np_log_10. cbn [fneg fdiv].
  rewrite Reqb_false; [reflexivity|]. pose proof ln_10_pos. lra.
Qed.

Lemma mlxp_cells_finite (l : list num) :
  Forall (fun v => is_finite v = true) l ->
  Forall (fun v => is_finite v = true)
         (map (fun v => fdiv (fneg v) (np.log (Fin 10))) l).
Proof.
  intros H. apply Forall_map. revert H. apply Forall_impl.
  intros [x| | |] Hx; try discriminate Hx. now rewrite mlxp_cell_Fin.
Qed.

Lemma replace_inf_finite (l : list num) :
  Forall (fun v => is_finite v = true) l -> map replace_inf l = l.
Proof.
  induction 1 as [|v l Hv _ IH]; cbn [map]; [reflexivity|].
  rewrite IH. destruct v; try discriminate Hv. reflexivity.
Qed.

(** What [mlxp_rows] returns, row by row. *)
Lemma mlxp_rows_done_inv (gammaln : num -> num) (fuel : nat)
    (rates : list num) :
  forall rows i t,
    mlxp_rows gammaln fuel rows rates i = Done t ->
    List.length t = List.length rows /\
    forall k row, nth_error rows k = Some row ->
      exists rate out,
        nth_error rates (i + k) = Some rate /\
        nth_error t k = Some out /\
        significance_row gammaln fuel row rate out.
Proof.
  induction rows as [|row rows IH]; intros i t H; cbn [mlxp_rows] in H.
  - injection H as <-. split; [reflexivity|].
    intros k r Hk. destruct k; discriminate Hk.
  - destruct (nth_error rates i) as [rate|] eqn:Hrate; [|discriminate H].
    destruct (poisson_logsf gammaln fuel row rate) as [logsf|e|] eqn:Hl;
      cbn [bind] in H; try discriminate H.
    destruct (mlxp_rows gammaln fuel rows rates (S i)) as [tl|e|] eqn:Ht;
      cbn [bind] in H; try discriminate H.
    injection H as <-. destruct (IH _ _ Ht) as [Hlen Hrows].
    split; [cbn [List.length]; now rewrite Hlen|].
    intros [|k] r Hk; cbn [nth_error] in Hk.
    + injection Hk as <-. exists rate, (map (fun v => fdiv (fneg v) (np.log (Fin 10))) logsf).
      rewrite Nat.add_0_r. split; [assumption|]. split; [reflexivity|].
      exists logsf. split; [assumption | reflexivity].
    + destruct (Hrows k r Hk) as (rate' & out & H1 & H2 & H3).
      exists rate', out. replace (i + S k)%nat with (S i + k)%nat by lia.
      split; [assumption|]. split; assumption.
Qed.

Lemma significance_row_finite (gammaln : num -> num) (fuel : nat)
    (row : list num) (rate : num) (out : list num) :
  significance_row gammaln fuel row rate out ->
  Forall (fun v => is_finite v = true) out /\
  List.length out = List.length row.
Proof.
  intros (logsf & Hl & ->). apply poisson_logsf_finite in Hl.
  destruct Hl as [Hfin Hlen]. split.
  - now apply mlxp_cells_finite.
  - now rewrite length_map.
Qed.

Lemma mlxp_rows_finite (gammaln : num -> num) (fuel : nat)
    (rates : list num) (rows : list (list num)) (i : nat)
    (t : list (list num)) :
  mlxp_rows gammaln fuel rows rates i = Done t ->
  Forall (Forall (fun v => is_finite v = true)) t.
Proof.
  intros H. apply mlxp_rows_done_inv in H. destruct H as [Hlen Hrows].
  apply Forall_forall. intros out Hin.
  apply In_nth_error in Hin. destruct Hin as [k Hk].
  assert (Hk' : (k < List.length rows)%nat).
  { rewrite <- Hlen. apply nth_error_Some. now rewrite Hk. }
  destruct (nth_error rows k) as [row|] eqn:Hrow.
  - destruct (Hrows k row Hrow) as (rate & out' & _ & Hout & Hsig).
    rewrite Hk in Hout. injection Hout as <-.
    now apply significance_row_finite in Hsig.
  - apply nth_error_None in Hrow. lia.
Qed.

Lemma map_replace_inf_finite (t : list (list num)) :
  Forall (Forall (fun v => is_finite v = true)) t ->
  map (map replace_inf) t = t.
Proof.
  induction 1 as [|r t Hr _ IH]; cbn [map]; [reflexivity|].
  now rewrite IH, replace_inf_finite.
Qed.

Lemma poisson_logsf_not_raised (gammaln : num -> num) (fuel : nat)
    (cs : list num) (rate : num) (e : exn) :
  poisson_logsf gammaln fuel cs rate <> Raised e.
Proof.
  unfold poisson_logsf.
  generalize (map (fun c => fadd c (Fin 1)) cs) at 1 as counts.
  generalize (log_pmf gammaln rate (map (fun c => fadd c (Fin 1)) cs)) as accum.
  induction fuel as [|fuel IH]; intros accum counts; cbn [poisson_loop].
  - discriminate.
  - destruct (forallb _ _); [discriminate | apply IH].
Qed.


(** On natural counts and positive rates every row returns once the fuel
    covers the iteration bound of each rate. *)
Lemma mlxp_rows_returns (gammaln : num -> num)
    (Hg : forall n : nat, gammaln (Fin (INR n + 1)) = Fin (ln (INR (fact n))))
    (fuel : nat) (rates : list num) :
  forall nss i,
    (forall k, (k < List.length nss)%nat ->
       exists r, nth_error rates (i + k) = Some (Fin r) /\ 0 < r /\
                 (iterations_bound r <= fuel)%nat) ->
    exists t, mlxp_rows gammaln fuel (map (map of_nat) nss) rates i = Done t.
Proof.
  induction nss as [|ns nss IH]; intros i H; cbn [map mlxp_rows].
  - now exists [].
  - destruct (H 0%nat ltac:(cbn; lia)) as (r & Hr & Hpos & Hfuel).
    rewrite Nat.add_0_r in Hr. rewrite Hr.
    destruct (poisson_logsf_returns gammaln Hg ns r Hpos) as (j & Hj & Hret & _).
    rewrite (poisson_logsf_fuel_mono gammaln j fuel _ _ _ ltac:(lia) Hret).
    cbn [bind].
    destruct (IH (S i)) as [tl Htl].
    { intros k Hk. destruct (H (S k) ltac:(cbn; lia)) as (r' & Hr' & H').
      exists r'. replace (S i + k)%nat with (i + S k)%nat by lia. auto. }
    rewrite Htl. cbn [bind]. eauto.
Qed.

(** The shape test looks at the lengths of the rows only. *)
Lemma frame_shape_ok_lengths (d d' : list (list num)) (idx cols : list string) :
  map (@List.length num) d = map (@List.length num) d' ->
  frame_shape_ok d idx cols = frame_shape_ok d' idx cols.
Proof.
  intros H. unfold frame_shape_ok.
  assert (Hl : List.length d = List.length d').
  { rewrite <- (length_map (@List.length num) d), H. apply length_map. }
  assert (Hf : forallb (fun row => Nat.eqb (List.length row) (List.length cols)) d
               = forallb (fun row => Nat.eqb (List.length row) (List.length cols)) d').
  { rewrite <- (forallb_map_compose (fun n => Nat.eqb n (List.length cols))
                  (@List.length num) d).
    rewrite <- (forallb_map_compose (fun n => Nat.eqb n (List.length cols))
                  (@List.length num) d').
    now rewrite H. }
  destruct d as [|r d], d' as [|r' d']; try discriminate Hl; [reflexivity|].
  now rewrite Hl, Hf.
Qed.

(** The rows that the loop computes have the lengths of the rows of counts. *)
Lemma mlxp_rows_lengths (gammaln : num -> num) (fuel : nat)
    (rates : list num) :
  forall rows i t,
    mlxp_rows gammaln fuel rows rates i = Done t ->
    map (@List.length num) t = map (@List.length num) rows.
Proof.
  induction rows as [|row rows IH]; intros i t H; cbn [mlxp_rows] in H.
  - injection H as <-. reflexivity.
  - destruct (nth_error rates i) as [rate|]; [|discriminate H].
    destruct (poisson_logsf gammaln fuel row rate) as [logsf|e|] eqn:Hl;
      cbn [bind] in H; try discriminate H.
    destruct (mlxp_rows gammaln fuel rows rates (S i)) as [tl|e|] eqn:Ht;
      cbn [bind] in H; try discriminate H.
    injection H as <-. cbn [map]. rewrite (IH _ _ Ht), length_map.
    f_equal. apply poisson_logsf_done_inv in Hl.
    destruct Hl as (j & _ & _ & _ & ->). apply length_map.
Qed.


Lemma mlxp_gamma_poisson_returns (gammaln : num -> num)
    (Hg : forall n : nat, gammaln (Fin (INR n + 1)) = Fin (ln (INR (fact n))))
    (idx cols : list string) (nss : list (list nat)) (rs : list R) (fuel : nat) :
  frame_shape_ok (map (map of_nat) nss) idx cols = true ->
  List.length rs = List.length nss ->
  Forall (fun r => 0 < r) rs ->
  (list_max (map iterations_bound rs) <= fuel)%nat ->
  exists t,
    mlxp_gamma_poisson gammaln fuel
      (mkDataFrame idx cols (map (map of_nat) nss)) (map Fin rs) = Done t.
Proof.
  intros Hshape Hlen Hpos Hfuel. unfold mlxp_gamma_poisson.
  cbn [values index columns].
  destruct (mlxp_rows_returns gammaln Hg fuel (map Fin rs) nss 0) as [t Ht].
  - intros k Hk. cbn [Nat.add].
    destruct (nth_error rs k) as [r|] eqn:Hr.
    + exists r. rewrite nth_error_map, Hr. split; [reflexivity|].
      apply nth_error_In in Hr. split.
      * rewrite Forall_forall in Hpos. now apply Hpos.
      * apply list_max_le in Hfuel. rewrite Forall_forall in Hfuel.
        apply Hfuel. now apply in_map.
    + apply nth_error_None in Hr. lia.
  - rewrite Ht. cbn [bind]. unfold pd_DataFrame.
    rewrite (frame_shape_ok_lengths t (map (map of_nat) nss) idx cols
               (mlxp_rows_lengths _ _ _ _ _ _ Ht)), Hshape.
    cbn [bind]. eauto.
Qed.

(** A call that returns has computed the rows and built the table. *)
Lemma mlxp_gamma_poisson_done_raw (gammaln : num -> num) (fuel : nat)
    (counts : DataFrame) (rates : list num) (t : DataFrame) :
  mlxp_gamma_poisson gammaln fuel counts rates = Done t ->
  exists raw,
    mlxp_rows gammaln fuel (values counts) rates 0 = Done raw /\
    frame_shape_ok (values counts) (index counts) (columns counts) = true /\
    t = mkDataFrame (index counts) (columns counts)
          (map (map replace_inf) raw).
Proof.
  unfold mlxp_gamma_poisson. intros H.
  destruct (mlxp_rows gammaln fuel (values counts) rates 0) as [raw|e|] eqn:Hraw;
    cbn [bind] in H; try discriminate H.
  unfold pd_DataFrame in H.
  rewrite (frame_shape_ok_lengths raw (values counts) _ _
             (mlxp_rows_lengths _ _ _ _ _ _ Hraw)) in H.
  destruct (frame_shape_ok (values counts) (index counts) (columns counts));
    cbn [bind] in H; [|discriminate H].
  injection H as <-. exists raw. auto.
Qed.

(** The shape, the labels and the rows of a returned significance table. *)
Lemma mlxp_gamma_poisson_done_inv (gammaln : num -> num) (fuel : nat)
    (counts : DataFrame) (rates : list num) (t : DataFrame) :
  mlxp_gamma_poisson gammaln fuel counts rates = Done t ->
  mlxp_rows gammaln fuel (values counts) rates 0 = Done (values t) /\
  index t = index counts /\ columns t = columns counts /\
  Forall (Forall (fun v => is_finite v = true)) (values t).
Proof.
  intros H. apply mlxp_gamma_poisson_done_raw in H.
  destruct H as (raw & Hraw & _ & ->). cbn [values index columns].
  pose proof (mlxp_rows_finite _ _ _ _ _ _ Hraw) as Hfin.
  rewrite map_replace_inf_finite by assumption. auto.
Qed.





(* ----------------------------------------------------------------- *)
(** *** The ceiling that replaces +inf *)

Lemma pow2_1022_pos : 0 < 2 ^ 1022.
Proof. apply pow_lt. lra. Qed.

Lemma tiny_approx :
  22 / 10 / 10 ^ 308 < / 2 ^ 1022 /\ / 2 ^ 1022 < 23 / 10 / 10 ^ 308.
Proof.
  assert (H1 : 22 * 2 ^ 1022 < 10 * 10 ^ 308).
  { rewrite !pow_IZR, <- !mult_IZR. apply IZR_lt. vm_compute. reflexivity. }
  assert (H2 : 10 * 10 ^ 308 < 23 * 2 ^ 1022).
  { rewrite !pow_IZR, <- !mult_IZR. apply IZR_lt. vm_compute. reflexivity. }
  pose proof pow2_1022_pos as HA.
  assert (HB : 0 < 10 ^ 308) by (apply pow_lt; lra).
  revert H1 H2 HA HB. generalize (2 ^ 1022) as A. generalize (10 ^ 308) as B.
  intros B A H1 H2 HA HB. split.
  - apply Rmult_lt_reg_r with (r := A * B * 10).
    + apply Rmult_lt_0_compat; [apply Rmult_lt_0_compat|]; lra.
    + replace (22 / 10 / B * (A * B * 10)) with (22 * A) by (field; lra).
      replace (/ A * (A * B * 10)) with (10 * B) by (field; lra). exact H1.
  - apply Rmult_lt_reg_r with (r := A * B * 10).
    + apply Rmult_lt_0_compat; [apply Rmult_lt_0_compat|]; lra.
    + replace (23 / 10 / B * (A * B * 10)) with (23 * A) by (field; lra).
      replace (/ A * (A * B * 10)) with (10 * B) by (field; lra). exact H2.
Qed.

Lemma ln_2_pos : 0 < ln 2.
Proof. rewrite <- ln_1. apply ln_increasing; lra. Qed.

(** log10(2) between two of its continued-fraction convergents. *)
Lemma log10_2_bounds :
  643 * ln 10 < 2136 * ln 2 /\ 485 * ln 2 < 146 * ln 10.
Proof.
  split.
  - assert (H : 10 ^ 643 < 2 ^ 2136).
    { rewrite !pow_IZR. apply IZR_lt. vm_compute. reflexivity. }
    apply ln_increasing in H; [|apply pow_lt; lra].
    rewrite !ln_pow in H by lra.
    rewrite !INR_IZR_INZ in H.
    change (IZR (Z.of_nat 643)) with 643 in H.
    change (IZR (Z.of_nat 2136)) with 2136 in H. exact H.
  - assert (H : 2 ^ 485 < 10 ^ 146).
    { rewrite !pow_IZR. apply IZR_lt. vm_compute. reflexivity. }
    apply ln_increasing in H; [|apply pow_lt; lra].
    rewrite !ln_pow in H by lra.
    rewrite !INR_IZR_INZ in H.
    change (IZR (Z.of_nat 485)) with 485 in H.
    change (IZR (Z.of_nat 146)) with 146 in H. exact H.
Qed.

Lemma mlxp_ceiling_value : mlxp_ceiling = Fin (1022 * ln 2 / ln 10).
Proof.
  unfold mlxp_ceiling, np.tiny, np.log10.
  rewrite Rltb_true by (apply Rinv_0_lt_compat, pow2_1022_pos).
  cbn [fneg]. f_equal.
  rewrite ln_Rinv by apply pow2_1022_pos.
  rewrite ln_pow by lra. rewrite INR_IZR_INZ.
  change (IZR (Z.of_nat 1022)) with 1022.
  pose proof ln_10_pos. field. lra.
Qed.

Lemma mlxp_ceiling_approx :
  30765 / 100 < 1022 * ln 2 / ln 10 /\ 1022 * ln 2 / ln 10 < 30766 / 100.
Proof.
  destruct log10_2_bounds as [Hlo Hhi].
  pose proof ln_10_pos as H10. pose proof ln_2_pos as H2.
  split.
  - apply Rmult_lt_reg_r with (r := ln 10); [assumption|].
    replace (1022 * ln 2 / ln 10 * ln 10) with (1022 * ln 2) by (field; lra).
    lra.
  - apply Rmult_lt_reg_r with (r := ln 10); [assumption|].
    replace (1022 * ln 2 / ln 10 * ln 10) with (1022 * ln 2) by (field; lra).
    lra.
Qed.

Lemma replace_inf_spec (v : num) :
  replace_inf v = match v with PInf => mlxp_ceiling | _ => v end.
Proof. destruct v; reflexivity. Qed.

(** C4. A table returned by [mlxp_gamma_poisson] holds no infinite value,
    for every count table and rate vector: its cells are the rows computed
    by the loop passed through [replace], which turns +inf into
    -log10(tiny) and leaves every other value, and every cell is finite.
    [tiny] is 2^-1022, about 2.2e-308, and the ceiling -log10(tiny) is the
    finite number 1022 * log10(2), between 307.65 and 307.66. *)
Theorem mlxp_no_infinite_value (gammaln : num -> num) (fuel : nat)
    (counts : DataFrame) (rates : list num) (t : DataFrame) :
  mlxp_gamma_poisson gammaln fuel counts rates = Done t ->
  Forall (Forall (fun v => is_inf v = false)) (values t) /\
  Forall (Forall (fun v => is_finite v = true)) (values t) /\
  (exists raw,
      mlxp_rows gammaln fuel (values counts) rates 0 = Done raw /\
      values t = map (map replace_inf) raw) /\
  replace_inf np.inf = fneg (np.log10 np.tiny) /\
  (forall v, v <> np.inf -> replace_inf v = v) /\
  np.tiny = Fin (/ 2 ^ 1022) /\
  22 / 10 / 10 ^ 308 < / 2 ^ 1022 < 23 / 10 / 10 ^ 308 /\
  fneg (np.log10 np.tiny) = Fin (1022 * ln 2 / ln 10) /\
  30765 / 100 < 1022 * ln 2 / ln 10 < 30766 / 100.
Proof.
  intros H.
  assert (Hraw : exists raw,
             mlxp_rows gammaln fuel (values counts) rates 0 = Done raw /\
             values t = map (map replace_inf) raw).
  { destruct (mlxp_gamma_poisson_done_raw _ _ _ _ _ H) as (raw & Hr & _ & ->).
    exists raw. split; [exact Hr | reflexivity]. }
  apply mlxp_gamma_poisson_done_inv in H. destruct H as (_ & _ & _ & Hfin).
  split; [|split; [exact Hfin|split; [exact Hraw|]]].
  - revert Hfin. apply Forall_impl. intros row. apply Forall_impl.
    intros [x| | |] Hx; try discriminate Hx. reflexivity.
  - split; [reflexivity|]. split.
    { intros v Hv. rewrite replace_inf_spec. destruct v; try reflexivity.
      now contradiction Hv. }
    split; [reflexivity|]. split; [exact tiny_approx|].
    split; [exact mlxp_ceiling_value | exact mlxp_ceiling_approx].
Qed.

Lemma mlxp_no_infinite_value_witness :
  exists fuel t,
    mlxp_gamma_poisson gammaln_int fuel
      (mkDataFrame ["c1"%string; "c2"%string] ["a"%string; "b"%string]
                   (map (map of_nat) [[0; 3]; [7; 1]]%nat))
      (map Fin [1; 5 / 2]) = Done t /\
    Forall (Forall (fun v => is_inf v = false)) (values t).
Proof.
  destruct (mlxp_gamma_poisson_returns gammaln_int gammaln_int_fact
              ["c1"%string; "c2"%string] ["a"%string; "b"%string]
              [[0; 3]; [7; 1]]%nat [1; 5 / 2]
              (list_max (map iterations_bound [1; 5 / 2])))
    as [t Ht].
  - reflexivity.
  - reflexivity.
  - repeat constructor; lra.
  - apply le_n.
  - exists (list_max (map iterations_bound [1; 5 / 2])), t.
    split; [exact Ht|].
    exact (proj1 (mlxp_no_infinite_value gammaln_int _ _ _ t Ht)).
Defined.

(* ================================================================= *)
(** ** The prior fitter *)

Lemma fit_gamma_eq (gammaln : num -> num)
    (minimize : (num * num -> num) -> num * num -> list bound -> OptimizeResult)
    (x : list num) :
  fit_gamma gammaln minimize x =
  Done (opt_x (minimize
                 (ll gammaln (of_nat (List.length x))
                     (fsum (filter (fun v => fgt v (Fin 0)) x))
                     (fsum (map np.log (filter (fun v => fgt v (Fin 0)) x))))
                 (Fin 2, Fin 1)
                 [(np.nextafter_0_1, None); (np.nextafter_0_1, None)])).
Proof.
  unfold fit_gamma, gamma_stats, fit_gamma_x0, fit_gamma_bounds.
  destruct (opt_x _) as [alpha beta]. reflexivity.
Qed.

Lemma ll_Fin (gammaln : num -> num) (m s sl a b g : R) :
  0 < b -> gammaln (Fin a) = Fin g ->
  ll gammaln (Fin m) (Fin s) (Fin sl) (Fin a, Fin b) =
  Fin (- (m * a * ln b - m * g + (a - 1) * sl - b * s)).
Proof.
  intros Hb Hg. unfold ll. cbn [fst snd np.log].
  rewrite Rltb_true by assumption. rewrite Hg.
  cbn [fmul fsub fadd fneg]. f_equal. ring.
Qed.

(** C1. [fit_gamma] hands to the minimizer, started at (alpha=2, beta=1)
    with the lower bound [nextafter(0, 1)] and no upper bound on both
    parameters, the negative log-likelihood
    -[m*alpha*log(beta) - m*logGamma(alpha) + (alpha-1)*sl - beta*s]
    where [s] and [sl] are the sum and the log-sum of the strictly positive
    entries, but [m] is [len(x)], the number of ALL entries: a zero entry is
    counted.  On the sample [0, 1, 2] the code takes m = 3, s = 3 and
    sl = ln 2, where the count of the positive entries is 2, and the
    objective with m = 3 differs from the one with m = 2 at
    (alpha, beta) = (1, 2). *)
Theorem fit_gamma_counts_zero_entries :
  (forall gammaln minimize x,
      fit_gamma gammaln minimize x =
      Done (opt_x (minimize
                     (ll gammaln (of_nat (List.length x))
                         (fsum (filter (fun v => fgt v (Fin 0)) x))
                         (fsum (map np.log
                                    (filter (fun v => fgt v (Fin 0)) x))))
                     (Fin 2, Fin 1)
                     [(np.nextafter_0_1, None); (np.nextafter_0_1, None)]))) /\
  (forall gammaln m s sl a b g,
      0 < b -> gammaln (Fin a) = Fin g ->
      ll gammaln (Fin m) (Fin s) (Fin sl) (Fin a, Fin b) =
      Fin (- (m * a * ln b - m * g + (a - 1) * sl - b * s))) /\
  gamma_stats [Fin 0; Fin 1; Fin 2] = (Fin 3, Fin 3, Fin (ln 2)) /\
  positive_count_spec [Fin 0; Fin 1; Fin 2] = Fin 2 /\
  ll gammaln_int (Fin 3) (Fin 3) (Fin (ln 2)) (Fin 1, Fin 2)
  <> ll gammaln_int (Fin 2) (Fin 3) (Fin (ln 2)) (Fin 1, Fin 2).
Proof.
  split; [exact fit_gamma_eq|]. split; [exact ll_Fin|].
  assert (H01 : Rltb 0 1 = true) by (apply Rltb_true; lra).
  assert (H02 : Rltb 0 2 = true) by (apply Rltb_true; lra).
  assert (H00 : Rltb 0 0 = false) by (apply Rltb_false; lra).
  split; [|split].
  - unfold gamma_stats, fgt, fsum, of_nat.
    cbn [filter flt]. rewrite H00, H01, H02.
    cbn [map np.log]. rewrite H01, H02.
    cbn [fold_left fadd List.length INR]. rewrite ln_1.
    f_equal; [f_equal|]; f_equal; lra.
  - unfold positive_count_spec, fgt, of_nat.
    cbn [filter flt]. rewrite H00, H01, H02.
    cbn [List.length INR]. f_equal; lra.
  - assert (Hg : gammaln_int (Fin 1) = Fin 0).
    { replace 1 with (INR 0 + 1) by (cbn [INR]; lra).
      rewrite gammaln_int_fact. cbn [fact INR]. now rewrite ln_1. }
    rewrite !(ll_Fin gammaln_int _ _ _ 1 2 0) by (lra || exact Hg).
    intros H. injection H as H. pose proof ln_2_pos. lra.
Qed.

(** C8, as the code has it. [fit_gamma] has no guard: for every sample,
    also one whose strictly positive subset is empty, and whatever the
    minimizer reports in its [success] flag, it returns the final (alpha,
    beta) of the minimizer and raises nothing. *)
Theorem fit_gamma_never_raises (gammaln : num -> num)
    (minimize : (num * num -> num) -> num * num -> list bound -> OptimizeResult)
    (x : list num) :
  (exists param,
      param = minimize
                (ll gammaln (fst (fst (gamma_stats x)))
                    (snd (fst (gamma_stats x))) (snd (gamma_stats x)))
                fit_gamma_x0 fit_gamma_bounds /\
      fit_gamma gammaln minimize x = Done (opt_x param)) /\
  (forall e, fit_gamma gammaln minimize x <> Raised e) /\
  fit_gamma gammaln minimize x <> Timeout.
Proof.
  assert (H := fit_gamma_eq gammaln minimize x).
  split; [|split].
  - eexists. split; [reflexivity|]. exact H.
  - intros e. rewrite H. discriminate.
  - rewrite H. discriminate.
Qed.

(** C8, as stated, fails: on the sample [0, 0], whose strictly positive
    subset is empty, and with a minimizer that reports failure, [fit_gamma]
    returns (2, 1) instead of raising. *)
Lemma fit_gamma_unguarded_counterexample :
  filter (fun v => fgt v (Fin 0)) [Fin 0; Fin 0] = [] /\
  (forall f x0 bounds, opt_success (minimize_gives_up f x0 bounds) = false) /\
  fit_gamma gammaln_int minimize_gives_up [Fin 0; Fin 0] = Done (Fin 2, Fin 1) /\
  ~ (exists e, fit_gamma gammaln_int minimize_gives_up [Fin 0; Fin 0]
               = Raised e).
Proof.
  split; [|split; [|split]].
  - unfold fgt. cbn [filter flt]. now rewrite Rltb_false by lra.
  - reflexivity.
  - reflexivity.
  - intros [e He]. discriminate He.
Qed.

(* ================================================================= *)
(** ** The orchestrator *)























(* ================================================================= *)
(** ** The loop on one count at a rational rate *)

Lemma Q2R_Qred (q : Q) : Q2R (Qred q) = Q2R q.
Proof. apply Qeq_eqR, Qred_correct. Qed.

Lemma Q2R_inject_nat (n : nat) : Q2R (inject_Z (Z.of_nat n)) = INR n.
Proof.
  unfold Q2R, inject_Z. cbn [Qnum Qden]. rewrite INR_IZR_INZ. lra.
Qed.

Lemma Q2R_weight_step (w q : Q) (k : nat) :
  Q2R (Qred (w * q / inject_Z (Z.of_nat (S k)))) = Q2R w * Q2R q / INR (S k).
Proof.
  rewrite Q2R_Qred, Q2R_div, Q2R_mult, Q2R_inject_nat; [reflexivity|].
  unfold Qeq, inject_Z. cbn [Qnum Qden]. lia.
Qed.

Lemma qpw_pmfR (q : Q) (k : nat) :
  exp (- Q2R q) * Q2R (qpw q k) = pmfR (Q2R q) k.
Proof.
  induction k as [|k IH].
  - unfold pmfR. cbn [qpw pow fact INR].
    replace (Q2R 1) with 1 by (unfold Q2R; cbn [Qnum Qden]; lra). field.
  - cbn [qpw]. rewrite Q2R_weight_step, pmfR_S, <- IH.
    unfold Rdiv. ring.
Qed.

Lemma exp_double (t : R) : exp (2 * t) = exp t * exp t.
Proof. replace (2 * t) with (t + t) by ring. apply exp_plus. Qed.

Lemma qsq_iter_below (n : nat) (x : Q) (t : R) :
  0 <= Q2R x -> Q2R x < exp t ->
  0 <= Q2R (qsq_iter n x) /\ Q2R (qsq_iter n x) < exp (2 ^ n * t).
Proof.
  intros H0 Hlt. induction n as [|n [IH0 IH]]; cbn [qsq_iter pow].
  - rewrite Rmult_1_l. split; assumption.
  - rewrite Q2R_mult, Rmult_assoc, exp_double. split.
    + now apply Rmult_le_pos.
    + apply Rmult_le_0_lt_compat; assumption.
Qed.

Lemma qsq_iter_above (n : nat) (x : Q) (t : R) :
  exp t < Q2R x -> exp (2 ^ n * t) < Q2R (qsq_iter n x).
Proof.
  intros Hlt. induction n as [|n IH]; cbn [qsq_iter pow].
  - now rewrite Rmult_1_l.
  - rewrite Q2R_mult, Rmult_assoc, exp_double.
    pose proof (exp_pos (2 ^ n * t)).
    apply Rmult_le_0_lt_compat; lra.
Qed.

Lemma exp_tol_split : 1 / 10000 = 2 ^ 10 * (1 / 10240000).
Proof. cbn [pow]. lra. Qed.

(** (1 + t)^1024 < exp(0.0001) < (1 - t)^-1024 for t = 0.0001/1024. *)
Lemma exp_tol_lo_below : Q2R exp_tol_lo < exp (1 / 10000).
Proof.
  apply Rle_lt_trans with (Q2R (qsq_iter 10 (10240001 # 10240000))).
  { apply Qle_Rle, Qle_bool_iff. vm_compute. reflexivity. }
  rewrite exp_tol_split.
  apply qsq_iter_below.
  - unfold Q2R. cbn [Qnum Qden]. lra.
  - pose proof (exp_ineq1 (1 / 10240000) ltac:(lra)).
    unfold Q2R. cbn [Qnum Qden]. lra.
Qed.

Lemma exp_tol_hi_above : exp (1 / 10000) < Q2R exp_tol_hi.
Proof.
  apply Rlt_le_trans with (Q2R (qsq_iter 10 (10240000 # 10239999))).
  2:{ apply Qle_Rle, Qle_bool_iff. vm_compute. reflexivity. }
  rewrite exp_tol_split.
  apply qsq_iter_above.
  pose proof (exp_ineq1 (- (1 / 10240000)) ltac:(lra)) as H.
  pose proof (exp_pos (1 / 10240000)) as Hp.
  rewrite exp_Ropp in H.
  assert (Hinv : / (1 + - (1 / 10240000)) = Q2R (10240000 # 10239999)).
  { unfold Q2R. cbn [Qnum Qden]. field. }
  rewrite <- Hinv. rewrite <- (Rinv_inv (exp (1 / 10240000))).
  apply Rinv_lt_contravar; [|exact H].
  apply Rmult_lt_0_compat; [lra|]. now apply Rinv_0_lt_compat.
Qed.

Section Rational.

Variable gammaln : num -> num.

Hypothesis gammaln_fact :
  forall n : nat, gammaln (Fin (INR n + 1)) = Fin (ln (INR (fact n))).

Variable q : Q.
Hypothesis q_pos : 0 < Q2R q.
Variable c : nat.

(** A result of the rational loop is the iteration out of which the loop
    of [poisson_logsf] returns, with the sum of the weights at that point. *)
Lemma qloop_sound :
  forall fuel j w W jr Wr,
    exp (- Q2R q) * Q2R w = pmfR (Q2R q) (S c + j) ->
    exp (- Q2R q) * Q2R W = pmf_sum (Q2R q) (S c) j ->
    qloop fuel q (S c) w W j = Some (jr, Wr) ->
    (j < jr)%nat /\
    converged gammaln (Fin (Q2R q)) (of_nat c) jr = true /\
    (forall t, (j < t < jr)%nat ->
       converged gammaln (Fin (Q2R q)) (of_nat c) t = false) /\
    exp (- Q2R q) * Q2R Wr = pmf_sum (Q2R q) (S c) jr.
Proof.
  induction fuel as [|fuel IH]; intros j w W jr Wr Hw HW H; cbn [qloop] in H.
  - discriminate H.
  - set (w' := Qred (w * q / inject_Z (Z.of_nat (S c + S j)))) in H.
    set (W' := Qred (W + w')) in H.
    assert (Hw' : exp (- Q2R q) * Q2R w' = pmfR (Q2R q) (S c + S j)).
    { unfold w'. rewrite Nat.add_succ_r, Q2R_weight_step, pmfR_S, <- Hw.
      unfold Rdiv. ring. }
    assert (HW' : exp (- Q2R q) * Q2R W' = pmf_sum (Q2R q) (S c) (S j)).
    { unfold W'. rewrite Q2R_Qred, Q2R_plus. cbn [pmf_sum].
      rewrite <- HW, <- Hw'. ring. }
    pose proof (exp_pos (- Q2R q)) as He.
    pose proof (pmf_sum_pos (Q2R q) (S c) j q_pos) as HS.
    pose proof exp_tol_lo_below as Hlo. pose proof exp_tol_hi_above as Hhi.
    assert (HWpos : 0 < Q2R W) by nra.
    destruct (Qle_bool W' (exp_tol_lo * W)) eqn:E1.
    + injection H as <- <-.
      split; [lia|]. split; [|split; [intros; lia | exact HW']].
      rewrite converged_nat by assumption. apply Rltb_true.
      apply Qle_bool_iff, Qle_Rle in E1. rewrite Q2R_mult in E1.
      rewrite <- HW', <- HW.
      apply Rle_lt_trans with (exp (- Q2R q) * (Q2R exp_tol_lo * Q2R W)).
      * apply Rmult_le_compat_l; lra.
      * replace (exp (1 / 10000) * (exp (- Q2R q) * Q2R W))
          with (exp (- Q2R q) * (exp (1 / 10000) * Q2R W)) by ring.
        apply Rmult_lt_compat_l; [assumption|].
        apply Rmult_lt_compat_r; assumption.
    + destruct (Qle_bool (exp_tol_hi * W) W') eqn:E2; [|discriminate H].
      assert (Hnot : converged gammaln (Fin (Q2R q)) (of_nat c) (S j) = false).
      { rewrite converged_nat by assumption. apply Rltb_false.
        apply Qle_bool_iff, Qle_Rle in E2. rewrite Q2R_mult in E2.
        rewrite <- HW', <- HW.
        apply Rle_trans with (exp (- Q2R q) * (Q2R exp_tol_hi * Q2R W)).
        - replace (exp (1 / 10000) * (exp (- Q2R q) * Q2R W))
            with (exp (- Q2R q) * (exp (1 / 10000) * Q2R W)) by ring.
          apply Rmult_le_compat_l; [lra|].
          apply Rmult_le_compat_r; lra.
        - apply Rmult_le_compat_l; lra. }
      destruct (IH (S j) w' W' jr Wr Hw' HW' H) as (Hj & Hc & Hn & HWr).
      split; [lia|]. split; [exact Hc|]. split; [|exact HWr].
      intros t Ht. destruct (Nat.eq_dec t (S j)) as [->|Hne]; [exact Hnot|].
      apply Hn. lia.
Qed.

(** The rational run gives the iteration and the value of the call. *)
Lemma qpoisson_sound (fuel j : nat) (W : Q) :
  qpoisson fuel q c = Some (j, W) ->
  0 < Q2R W /\
  returns_after gammaln j [of_nat c] (Fin (Q2R q)) [Fin (ln (Q2R W) - Q2R q)].
Proof.
  unfold qpoisson. intros H.
  apply qloop_sound in H.
  - destruct H as (Hj & Hc & Hn & HW).
    pose proof (exp_pos (- Q2R q)) as He.
    pose proof (pmf_sum_pos (Q2R q) (S c) j q_pos) as HS.
    assert (HWpos : 0 < Q2R W) by nra.
    split; [assumption|].
    apply returns_after_iff. split; [lia|]. split; [|split].
    + unfold all_converged. cbn [forallb]. now rewrite Hc.
    + intros t Ht. unfold all_converged. cbn [forallb].
      rewrite Hn by lia. reflexivity.
    + cbn [map]. rewrite running_nat by assumption. rewrite <- HW.
      rewrite ln_mult, ln_exp by assumption. do 2 f_equal. ring.
  - rewrite Nat.add_0_r. apply qpw_pmfR.
  - cbn [pmf_sum]. apply qpw_pmfR.
Qed.

End Rational.

(* ================================================================= *)
(** ** Order of the results in the count *)

Lemma pmf_sum_peel (rate : R) (k0 i : nat) :
  pmf_sum rate k0 (S i) = pmfR rate k0 + pmf_sum rate (S k0) i.
Proof.
  induction i as [|i IH].
  - cbn [pmf_sum]. now rewrite Nat.add_1_r.
  - change (pmf_sum rate k0 (S (S i)))
      with (pmf_sum rate k0 (S i) + pmfR rate (k0 + S (S i))).
    rewrite IH. cbn [pmf_sum].
    replace (S k0 + S i)%nat with (k0 + S (S i))%nat by lia. ring.
Qed.

Lemma pmf_sum_extend (rate : R) (k0 i i' : nat) :
  0 < rate -> (i <= i')%nat -> pmf_sum rate k0 i <= pmf_sum rate k0 i'.
Proof.
  intros H Hle. induction Hle as [|i' _ IH].
  - lra.
  - cbn [pmf_sum]. pose proof (pmfR_pos rate (k0 + S i') H). lra.
Qed.

(** A window of terms that starts [d] later and ends no later sums to no
    more. *)
Lemma pmf_sum_shift (rate : R) (d : nat) :
  0 < rate ->
  forall k0 i, pmf_sum rate (k0 + d) i <= pmf_sum rate k0 (i + d).
Proof.
  intros H. induction d as [|d IH]; intros k0 i.
  - rewrite !Nat.add_0_r. lra.
  - replace (k0 + S d)%nat with (S k0 + d)%nat by lia.
    replace (i + S d)%nat with (S (i + d)) by lia.
    rewrite pmf_sum_peel. pose proof (pmfR_pos rate k0 H).
    specialize (IH (S k0) i). lra.
Qed.

Lemma pmf_sum_nested (rate : R) (c1 c2 j1 j2 : nat) :
  0 < rate -> (c1 <= c2)%nat -> (c2 + j2 <= c1 + j1)%nat ->
  pmf_sum rate (S c2) j2 <= pmf_sum rate (S c1) j1.
Proof.
  intros H Hc Hj.
  replace (S c2) with (S c1 + (c2 - c1))%nat by lia.
  apply Rle_trans with (pmf_sum rate (S c1) (j2 + (c2 - c1))).
  - now apply pmf_sum_shift.
  - apply pmf_sum_extend; [assumption | lia].
Qed.

Lemma ln_le_mono (a b : R) : 0 < a -> a <= b -> ln a <= ln b.
Proof.
  intros Ha [Hlt | ->]; [left; now apply ln_increasing | right; reflexivity].
Qed.

(** Two calls that do not sum the series further, one than the other. *)
Lemma poisson_logsf_monotone_nested (gammaln : num -> num)
    (Hg : forall n : nat, gammaln (Fin (INR n + 1)) = Fin (ln (INR (fact n))))
    (rate : R) (c1 c2 j1 j2 : nat) (r1 r2 : list num) :
  0 < rate ->
  (c1 <= c2)%nat ->
  returns_after gammaln j1 [of_nat c1] (Fin rate) r1 ->
  returns_after gammaln j2 [of_nat c2] (Fin rate) r2 ->
  (c2 + j2 <= c1 + j1)%nat ->
  exists x1 x2, r1 = [Fin x1] /\ r2 = [Fin x2] /\ x2 <= x1.
Proof.
  intros Hrate Hc H1 H2 Hj.
  apply returns_after_iff in H1. destruct H1 as (_ & _ & _ & ->).
  apply returns_after_iff in H2. destruct H2 as (_ & _ & _ & ->).
  cbn [map]. rewrite !running_nat by assumption.
  exists (ln (pmf_sum rate (S c1) j1)), (ln (pmf_sum rate (S c2) j2)).
  split; [reflexivity|]. split; [reflexivity|].
  apply ln_le_mono; [now apply pmf_sum_pos | now apply pmf_sum_nested].
Qed.












Lemma Q2R_one : Q2R 1 = 1.
Proof. unfold Q2R. cbn [Qnum Qden]. lra. Qed.




(* ================================================================= *)
(** ** Further properties of the tail-probability engine *)

(** X1. Whatever the counts and the rate, also NaN and infinite ones, a
    result of [poisson_logsf] has one entry per count and every entry is a
    finite number: the loop cannot end on NaN, +inf or -inf. *)
Theorem poisson_logsf_result_finite (gammaln : num -> num) (fuel : nat)
    (counts : list num) (rate : num) (res : list num) :
  poisson_logsf gammaln fuel counts rate = Done res ->
  List.length res = List.length counts /\
  Forall (fun v => exists x, v = Fin x) res.
Proof.
  intros H. apply poisson_logsf_finite in H. destruct H as [Hfin Hlen].
  split; [exact Hlen|]. revert Hfin. apply Forall_impl.
  intros [x| | |] Hv; try discriminate Hv. now exists x.
Qed.

Lemma poisson_logsf_result_finite_witness :
  List.length [Fin (ln (Q2R (69281 # 40320)) - Q2R 1)]
  = List.length [of_nat 0] /\
  Forall (fun v => exists x, v = Fin x)
         [Fin (ln (Q2R (69281 # 40320)) - Q2R 1)].
Proof.
  assert (Hq : 0 < Q2R 1) by (rewrite Q2R_one; lra).
  apply (poisson_logsf_result_finite gammaln_int 7 [of_nat 0] (Fin (Q2R 1))).
  apply (qpoisson_sound gammaln_int gammaln_int_fact 1 Hq 0 40 7
           (69281 # 40320)).
  vm_compute. reflexivity.
Defined.

(** With a NaN rate every running log-sum is NaN, whatever the count. *)
Lemma running_nan_rate (gammaln : num -> num) (c : num) (i : nat) :
  running gammaln NaN c i = NaN.
Proof.
  assert (Hterm : forall v, log_pmf1 gammaln NaN v = NaN).
  { intros v. unfold log_pmf1. cbn [np.log].
    destruct v; cbn [fmul fsub fneg fadd]; reflexivity. }
  induction i as [|i IH]; cbn [running].
  - apply Hterm.
  - rewrite IH, Hterm. reflexivity.
Qed.

Lemma all_converged_nonempty_false (gammaln : num -> num) (rate : num)
    (cs : list num) (t : nat) :
  cs <> [] ->
  (forall c, In c cs -> converged gammaln rate c t = false) ->
  all_converged gammaln rate cs t = false.
Proof.
  intros Hne H. destruct cs as [|c cs]; [contradiction|].
  unfold all_converged. cbn [forallb]. rewrite (H c) by now left. reflexivity.
Qed.

Lemma poisson_logsf_nan_rate (gammaln : num -> num) (fuel : nat)
    (cs : list num) :
  cs <> [] -> poisson_logsf gammaln fuel cs NaN = Timeout.
Proof.
  intros Hne. apply poisson_logsf_timeout. intros t _.
  apply all_converged_nonempty_false; [assumption|].
  intros c _. unfold converged. now rewrite !running_nan_rate.
Qed.

(** The value on which the loop is stuck at a rate that is not a finite
    positive number: -inf at rate 0, NaN otherwise. *)
Lemma running_bad_rate (gammaln : num -> num)
    (Hg : forall n : nat, gammaln (Fin (INR n + 1)) = Fin (ln (INR (fact n))))
    (rate : num) (n : nat) :
  positive_finite rate = false ->
  (forall i, running gammaln rate (of_nat n) i = NInf) \/
  (forall i, running gammaln rate (of_nat n) i = NaN).
Proof.
  intros Hbad.
  assert (Hk : forall k, INR (S k) <> 0) by (intros k; apply not_0_INR; lia).
  assert (Hk0 : forall k, Rltb (INR (S k)) 0 = false).
  { intros k. apply Rltb_false. apply pos_INR. }
  assert (Hcase :
    (forall k, log_pmf1 gammaln rate (of_nat (S k)) = NInf) \/
    (forall k, log_pmf1 gammaln rate (of_nat (S k)) = NaN)).
  { destruct rate as [r| | |]; cbn [positive_finite] in Hbad.
    - destruct (Req_dec_T r 0) as [->|Hr].
      + left. intros k. unfold log_pmf1, of_nat. cbn [np.log fadd].
        rewrite Hbad, Reqb_true by reflexivity. rewrite Hg.
        cbn [fmul]. rewrite Reqb_false by apply Hk.
        unfold inf_signed. rewrite Hk0. reflexivity.
      + right. intros k. unfold log_pmf1, of_nat. cbn [np.log].
        rewrite Hbad, Reqb_false by assumption. reflexivity.
    - right. intros k. unfold log_pmf1, of_nat. cbn [np.log fmul].
      rewrite Reqb_false by apply Hk. unfold inf_signed. rewrite Hk0.
      reflexivity.
    - right. intros k. reflexivity.
    - right. intros k. reflexivity. }
  assert (Hb : forall j, bump (S j) (of_nat n) = of_nat (S (n + j))).
  { intros j. rewrite bump_of_nat. f_equal. lia. }
  destruct Hcase as [Hterm | Hterm]; [left | right];
    induction i as [|i IH]; cbn [running]; rewrite ?IH, Hb, Hterm; reflexivity.
Qed.

(** X2. At a rate that is not a finite positive number (zero, negative,
    NaN, +inf or -inf) a call on a non-empty vector of non-negative integer
    counts never returns: the convergence test fails in every iteration,
    because the update is NaN.  The source has no check of the rate. *)
Theorem poisson_logsf_bad_rate_never_returns (gammaln : num -> num)
    (Hg : forall n : nat, gammaln (Fin (INR n + 1)) = Fin (ln (INR (fact n))))
    (ns : list nat) (rate : num) (fuel : nat) :
  ns <> [] ->
  positive_finite rate = false ->
  poisson_logsf gammaln fuel (map of_nat ns) rate = Timeout /\
  forall t, (1 <= t)%nat ->
    Forall (fun c => converged gammaln rate c t = false) (map of_nat ns).
Proof.
  intros Hne Hbad.
  assert (Hconv : forall t c, In c (map of_nat ns) ->
                              converged gammaln rate c t = false).
  { intros t c Hc. apply in_map_iff in Hc. destruct Hc as (n & <- & _).
    unfold converged.
    destruct (running_bad_rate gammaln Hg rate n Hbad) as [H | H];
      rewrite !H; reflexivity. }
  split.
  - apply poisson_logsf_timeout. intros t _.
    apply all_converged_nonempty_false; [|now apply Hconv].
    destruct ns; [contradiction | discriminate].
  - intros t _. apply Forall_forall. intros c Hc. now apply Hconv.
Qed.

Lemma poisson_logsf_bad_rate_never_returns_witness :
  poisson_logsf gammaln_int 1000 (map of_nat [0; 4]%nat) (Fin 0) = Timeout /\
  forall t, (1 <= t)%nat ->
    Forall (fun c => converged gammaln_int (Fin 0) c t = false)
           (map of_nat [0; 4]%nat).
Proof.
  apply (poisson_logsf_bad_rate_never_returns gammaln_int gammaln_int_fact
           [0; 4]%nat (Fin 0) 1000).
  - discriminate.
  - cbn [positive_finite]. apply Rltb_false. lra.
Defined.

(** X3. The loop runs in lock step, so a call on a vector runs at least as
    many iterations as a call on any one of its elements alone, and returns
    for that element a value at least as large: the sum of the same terms,
    and possibly more. *)
Theorem poisson_logsf_vector_runs_longer (gammaln : num -> num)
    (Hg : forall n : nat, gammaln (Fin (INR n + 1)) = Fin (ln (INR (fact n))))
    (rate : R) (ns : list nat) (k n jv j1 : nat) (rv r1 : list num) :
  0 < rate ->
  nth_error ns k = Some n ->
  returns_after gammaln jv (map of_nat ns) (Fin rate) rv ->
  returns_after gammaln j1 [of_nat n] (Fin rate) r1 ->
  (j1 <= jv)%nat /\
  exists x1 xv,
    r1 = [Fin x1] /\ nth_error rv k = Some (Fin xv) /\ x1 <= xv.
Proof.
  intros Hrate Hk Hv H1.
  apply returns_after_iff in Hv. destruct Hv as (Hjv & Hcv & _ & ->).
  apply returns_after_iff in H1. destruct H1 as (Hj1 & _ & Hmin & ->).
  assert (Hc : converged gammaln (Fin rate) (of_nat n) jv = true).
  { unfold all_converged in Hcv. rewrite forallb_forall in Hcv.
    apply Hcv. apply in_map. now apply nth_error_In with k. }
  assert (Hle : (j1 <= jv)%nat).
  { destruct (le_lt_dec j1 jv) as [Hle | Hlt]; [assumption|].
    specialize (Hmin jv ltac:(lia)). unfold all_converged in Hmin.
    cbn [forallb] in Hmin. rewrite Hc in Hmin. discriminate Hmin. }
  split; [exact Hle|].
  exists (ln (pmf_sum rate (S n) j1)), (ln (pmf_sum rate (S n) jv)).
  split; [|split].
  - cbn [map]. now rewrite running_nat.
  - rewrite !nth_error_map, Hk. cbn [option_map]. now rewrite running_nat.
  - apply ln_le_mono; [now apply pmf_sum_pos | now apply pmf_sum_extend].
Qed.

Lemma poisson_logsf_vector_runs_longer_witness :
  exists jv j1 rv r1,
    returns_after gammaln_int jv (map of_nat [0; 3; 10]%nat) (Fin 1) rv /\
    returns_after gammaln_int j1 [of_nat 3] (Fin 1) r1 /\
    (j1 <= jv)%nat /\
    exists x1 xv,
      r1 = [Fin x1] /\ nth_error rv 1 = Some (Fin xv) /\ x1 <= xv.
Proof.
  assert (H1 : 0 < 1) by lra.
  destruct (poisson_logsf_returns gammaln_int gammaln_int_fact
              [0; 3; 10]%nat 1 H1) as (jv & _ & Hv).
  destruct (poisson_logsf_returns gammaln_int gammaln_int_fact
              [3]%nat 1 H1) as (j1 & _ & Hs).
  exists jv, j1. eexists. eexists. split; [exact Hv|]. split; [exact Hs|].
  exact (poisson_logsf_vector_runs_longer gammaln_int gammaln_int_fact
           1 [0; 3; 10]%nat 1 3 jv j1 _ _ H1 eq_refl Hv Hs).
Defined.

(* ----------------------------------------------------------------- *)
(** *** The result against the exact tail probability *)

Lemma pmfR_exp_term (rate : R) (k : nat) :
  pmfR rate k = exp (- rate) * exp_term rate k.
Proof.
  unfold pmfR, exp_term. pose proof (INR_fact_neq_0 k). field. assumption.
Qed.

Lemma pmf_sum_exp_series (rate : R) (N : nat) :
  pmf_sum rate 0 N = exp (- rate) * sum_f_R0 (exp_term rate) N.
Proof.
  induction N as [|N IH]; cbn [pmf_sum sum_f_R0].
  - apply pmfR_exp_term.
  - rewrite IH, pmfR_exp_term. cbn [Nat.add]. ring.
Qed.

(** A partial sum of the exponential series of a positive number is below
    its exponential. *)
Lemma exp_partial_sum_lt (x : R) (N : nat) :
  0 < x -> sum_f_R0 (exp_term x) N < exp x.
Proof.
  intros Hx.
  assert (Hpos : forall i, 0 < exp_term x i).
  { intros i. unfold exp_term. apply Rmult_lt_0_compat.
    - apply Rinv_0_lt_compat, lt_0_INR, lt_O_fact.
    - now apply pow_lt. }
  apply Rlt_le_trans with (sum_f_R0 (exp_term x) (S N)).
  - cbn [sum_f_R0]. specialize (Hpos (S N)). lra.
  - apply sum_incr.
    + exact (proj2_sig (exist_exp x)).
    + intros i. left. apply Hpos.
Qed.

Lemma cdfR_lt_1 (rate : R) (N : nat) : 0 < rate -> cdfR rate N < 1.
Proof.
  intros H. unfold cdfR. rewrite pmf_sum_exp_series.
  pose proof (exp_partial_sum_lt rate N H) as Hs.
  pose proof (exp_pos (- rate)) as He.
  replace 1 with (exp (- rate) * exp rate).
  - now apply Rmult_lt_compat_l.
  - rewrite <- exp_plus. replace (- rate + rate) with 0 by ring. apply exp_0.
Qed.

Lemma pmf_sum_concat (rate : R) (c j : nat) :
  pmf_sum rate 0 c + pmf_sum rate (S c) j = pmf_sum rate 0 (c + S j).
Proof.
  induction j as [|j IH].
  - rewrite Nat.add_1_r. cbn [pmf_sum Nat.add]. reflexivity.
  - replace (c + S (S j))%nat with (S (c + S j)) by lia.
    cbn [pmf_sum]. rewrite <- IH. cbn [Nat.add].
    replace (S (c + S j)) with (S (c + S j)) by reflexivity.
    replace (c + S j)%nat with (S (c + j)) by lia. ring.
Qed.

(** The truncated sum stays below the tail probability, which is below 1. *)
Lemma pmf_sum_below_tail (rate : R) (c j : nat) :
  0 < rate ->
  pmf_sum rate (S c) j < 1 - cdfR rate c /\ 1 - cdfR rate c < 1.
Proof.
  intros H. pose proof (pmf_sum_concat rate c j) as Hcat.
  pose proof (cdfR_lt_1 rate (c + S j) H) as Hlt. unfold cdfR in *.
  pose proof (pmf_sum_pos rate 0 c H). lra.
Qed.

Lemma poisson_logsf_negative (gammaln : num -> num)
    (Hg : forall n : nat, gammaln (Fin (INR n + 1)) = Fin (ln (INR (fact n))))
    (rate : R) (ns : list nat) (fuel : nat) (res : list num) :
  0 < rate ->
  poisson_logsf gammaln fuel (map of_nat ns) (Fin rate) = Done res ->
  Forall (fun v => exists x, v = Fin x /\ x < 0) res.
Proof.
  intros H Hdone. apply poisson_logsf_done_inv in Hdone.
  destruct Hdone as (j & _ & _ & _ & ->).
  rewrite map_map. apply Forall_map, Forall_forall. intros n _.
  rewrite running_nat by assumption.
  exists (ln (pmf_sum rate (S n) j)). split; [reflexivity|].
  rewrite <- ln_1. apply ln_increasing; [now apply pmf_sum_pos|].
  pose proof (pmf_sum_below_tail rate n j H). lra.
Qed.

(** X4. On natural counts at a positive rate the result never exceeds the
    exact log tail probability: each returned value x is the logarithm of a
    truncated sum of Poisson probabilities, exp(x) < 1 - CDF(count), hence
    x < log(1 - CDF(count)) < 0. *)
Theorem poisson_logsf_below_exact_tail (gammaln : num -> num)
    (Hg : forall n : nat, gammaln (Fin (INR n + 1)) = Fin (ln (INR (fact n))))
    (rate : R) (ns : list nat) (fuel : nat) (res : list num) (k n : nat) :
  0 < rate ->
  poisson_logsf gammaln fuel (map of_nat ns) (Fin rate) = Done res ->
  nth_error ns k = Some n ->
  exists x,
    nth_error res k = Some (Fin x) /\
    exp x < 1 - cdfR rate n /\
    x < ln (1 - cdfR rate n) /\
    ln (1 - cdfR rate n) < 0.
Proof.
  intros H Hdone Hk. apply poisson_logsf_done_inv in Hdone.
  destruct Hdone as (j & _ & _ & _ & ->).
  exists (ln (pmf_sum rate (S n) j)).
  pose proof (pmf_sum_pos rate (S n) j H) as Hpos.
  destruct (pmf_sum_below_tail rate n j H) as [Hlt H1].
  split; [|split; [|split]].
  - rewrite !nth_error_map, Hk. cbn [option_map]. now rewrite running_nat.
  - now rewrite exp_ln.
  - now apply ln_increasing.
  - rewrite <- ln_1. apply ln_increasing; lra.
Qed.

Lemma poisson_logsf_below_exact_tail_witness :
  exists x,
    nth_error [Fin (ln (Q2R (69281 # 40320)) - Q2R 1)] 0 = Some (Fin x) /\
    exp x < 1 - cdfR (Q2R 1) 0 /\
    x < ln (1 - cdfR (Q2R 1) 0) /\
    ln (1 - cdfR (Q2R 1) 0) < 0.
Proof.
  assert (Hq : 0 < Q2R 1) by (rewrite Q2R_one; lra).
  apply (poisson_logsf_below_exact_tail gammaln_int gammaln_int_fact
           (Q2R 1) [0]%nat 7 _ 0 0 Hq).
  - apply (qpoisson_sound gammaln_int gammaln_int_fact 1 Hq 0 40 7
             (69281 # 40320)).
    vm_compute. reflexivity.
  - reflexivity.
Defined.

(* ----------------------------------------------------------------- *)
(** *** The cost of the loop below the mode *)

Lemma pmfR_rising (rate : R) (k : nat) :
  0 < rate -> INR (S k) <= rate -> pmfR rate k <= pmfR rate (S k).
Proof.
  intros H Hk. rewrite pmfR_S.
  pose proof (pmfR_pos rate k H) as Hp.
  assert (Hx : 0 < INR (S k)) by (apply lt_0_INR; lia).
  apply Rmult_le_reg_r with (r := INR (S k)); [assumption|].
  unfold Rdiv. rewrite Rmult_assoc, Rinv_l by lra. nra.
Qed.

Lemma pmfR_rising_le (rate : R) (k k' : nat) :
  0 < rate -> (k <= k')%nat -> INR k' <= rate -> pmfR rate k <= pmfR rate k'.
Proof.
  intros H Hle. induction Hle as [|k' Hle IH]; intros Hk.
  - lra.
  - apply Rle_trans with (pmfR rate k').
    + apply IH. rewrite S_INR in Hk. lra.
    + now apply pmfR_rising.
Qed.

Lemma pmf_sum_le_count (rate : R) (k0 i : nat) (T : R) :
  (forall l, (l <= i)%nat -> pmfR rate (k0 + l) <= T) ->
  pmf_sum rate k0 i <= INR (S i) * T.
Proof.
  induction i as [|i IH]; intros Hl; cbn [pmf_sum].
  - specialize (Hl 0%nat (le_n 0)). rewrite Nat.add_0_r in Hl.
    cbn [INR]. lra.
  - rewrite (S_INR (S i)).
    specialize (IH (fun l Hle => Hl l (Nat.le_trans _ _ _ Hle (Nat.le_succ_diag_r i)))).
    specialize (Hl (S i) (le_n _)). lra.
Qed.

(** While the terms still rise, an element cannot pass the test before
    iteration 10000: the new term is at least the mean of the terms summed
    so far. *)
Lemma converged_not_while_rising (gammaln : num -> num)
    (Hg : forall n : nat, gammaln (Fin (INR n + 1)) = Fin (ln (INR (fact n))))
    (rate : R) (n j : nat) :
  0 < rate -> (1 <= j)%nat -> INR j <= 9999 -> INR (S n + j) <= rate ->
  converged gammaln (Fin rate) (of_nat n) j = false.
Proof.
  intros H Hj Hj9 Hrate. destruct j as [|i]; [lia|].
  rewrite converged_nat by assumption. apply Rltb_false. cbn [pmf_sum].
  set (T := pmfR rate (S n + S i)).
  assert (Hsum : pmf_sum rate (S n) i <= INR (S i) * T).
  { apply pmf_sum_le_count. intros l Hl. apply pmfR_rising_le; [assumption | lia |].
    apply Rle_trans with (INR (S n + S i)); [apply le_INR; lia | assumption]. }
  pose proof (pmf_sum_pos rate (S n) i H) as HS.
  pose proof (pmfR_pos rate (S n + S i) H) as HT. fold T in HT.
  pose proof exp_tol_hi_above as Hhi.
  assert (Hq : Q2R exp_tol_hi = 100010000501 / 100000000000) by reflexivity.
  rewrite Hq in Hhi.
  assert (Hi : 0 < INR (S i)) by (apply lt_0_INR; lia).
  assert (Hb : (exp (1 / 10000) - 1) * pmf_sum rate (S n) i <= T).
  { apply Rle_trans with ((exp (1 / 10000) - 1) * (INR (S i) * T)).
    - apply Rmult_le_compat_l; [|assumption].
      pose proof (exp_ineq1 (1 / 10000) ltac:(lra)). lra.
    - assert (Hc : (exp (1 / 10000) - 1) * INR (S i) <= 1).
      { pose proof (exp_ineq1 (1 / 10000) ltac:(lra)).
        apply Rle_trans with ((100010000501 / 100000000000 - 1) * 9999);
          [|lra].
        apply Rmult_le_compat; lra. }
      rewrite <- Rmult_assoc.
      apply Rle_trans with (1 * T); [|lra].
      apply Rmult_le_compat_r; lra. }
  lra.
Qed.

(** X5. In exact arithmetic, at a rate of at most 10^6, a count that lies
    at least 5000 below the rate costs at least 5000 iterations: a call whose
    vector holds such a count cannot return with less fuel, because each new
    term is at least the mean of the terms already summed as long as the
    series is still rising, so that up to iteration 5000 the update is at
    least ln(1 + 1/5000), twice the tolerance.  At rates of this size the
    terms are below 2e7 in absolute value and a rounding error of binary64
    on them is of the order of 1e-9. *)
Theorem poisson_logsf_rising_terms_cost (gammaln : num -> num)
    (Hg : forall n : nat, gammaln (Fin (INR n + 1)) = Fin (ln (INR (fact n))))
    (rate : R) (ns : list nat) (n fuel : nat) (res : list num) :
  0 < rate ->
  rate <= 1000000 ->
  In n ns ->
  INR n + 5000 <= rate ->
  poisson_logsf gammaln fuel (map of_nat ns) (Fin rate) = Done res ->
  5000 <= INR fuel.
Proof.
  intros H _ Hin Hrate Hdone. apply poisson_logsf_done_inv in Hdone.
  destruct Hdone as (j & Hj & Hc & _ & _).
  assert (Hcn : converged gammaln (Fin rate) (of_nat n) j = true).
  { unfold all_converged in Hc. rewrite forallb_forall in Hc.
    apply Hc. now apply in_map. }
  apply Rle_trans with (INR j); [|apply le_INR; lia].
  destruct (Rle_lt_dec 5000 (INR j)) as [Hle | Hlt]; [assumption|].
  exfalso.
  assert (Hj9 : INR j <= 4999).
  { rewrite INR_IZR_INZ in *. apply lt_IZR in Hlt. apply IZR_le. lia. }
  rewrite (converged_not_while_rising gammaln Hg rate n j) in Hcn;
    [discriminate | assumption | lia | lra |].
  rewrite plus_INR, S_INR. lra.
Qed.

Lemma poisson_logsf_rising_terms_cost_witness :
  exists fuel res,
    poisson_logsf gammaln_int fuel (map of_nat [0; 5]%nat) (Fin 20000)
    = Done res /\
    5000 <= INR fuel.
Proof.
  assert (H : 0 < 20000) by lra.
  destruct (poisson_logsf_returns gammaln_int gammaln_int_fact
              [0; 5]%nat 20000 H) as (j & _ & Hdone & _).
  exists j. eexists. split; [exact Hdone|].
  apply (poisson_logsf_rising_terms_cost gammaln_int gammaln_int_fact
           20000 [0; 5]%nat 5 j
           (map (fun n => Fin (ln (pmf_sum 20000 (S n) j))) [0; 5]%nat) H).
  - lra.
  - cbn [In]. auto.
  - cbn [INR]. lra.
  - exact Hdone.
Defined.

(* ================================================================= *)
(** ** Further properties of the significance transformer *)

(** X6. On natural counts and positive rates every cell of a returned
    significance table is a positive finite number: the p-value behind it,
    a truncated sum of Poisson probabilities, is below 1. *)
Theorem mlxp_cells_positive (gammaln : num -> num)
    (Hg : forall n : nat, gammaln (Fin (INR n + 1)) = Fin (ln (INR (fact n))))
    (idx cols : list string) (nss : list (list nat)) (rs : list R)
    (fuel : nat) (t : DataFrame) :
  Forall (fun r => 0 < r) rs ->
  mlxp_gamma_poisson gammaln fuel
    (mkDataFrame idx cols (map (map of_nat) nss)) (map Fin rs) = Done t ->
  Forall (Forall (fun v => exists x, v = Fin x /\ 0 < x)) (values t).
Proof.
  intros Hpos H. apply mlxp_gamma_poisson_done_inv in H.
  destruct H as (Hrows & _ & _ & _). cbn [values] in Hrows.
  apply mlxp_rows_done_inv in Hrows. destruct Hrows as [Hlen Hrows].
  apply Forall_forall. intros out Hin.
  apply In_nth_error in Hin. destruct Hin as [k Hk].
  assert (Hk' : (k < List.length (map (map of_nat) nss))%nat).
  { rewrite <- Hlen. apply nth_error_Some. now rewrite Hk. }
  destruct (nth_error (map (map of_nat) nss) k) as [row|] eqn:Hrow;
    [|apply nth_error_None in Hrow; lia].
  destruct (Hrows k row Hrow) as (rate & out' & Hrate & Hout & logsf & Hl & ->).
  rewrite Hk in Hout. injection Hout as ->.
  rewrite nth_error_map in Hrow.
  destruct (nth_error nss k) as [ns|]; [|discriminate Hrow].
  injection Hrow as <-.
  cbn [Nat.add] in Hrate. rewrite nth_error_map in Hrate.
  destruct (nth_error rs k) as [r|] eqn:Hr; [|discriminate Hrate].
  injection Hrate as <-.
  assert (Hr0 : 0 < r).
  { rewrite Forall_forall in Hpos. apply Hpos. now apply nth_error_In with k. }
  pose proof (poisson_logsf_negative gammaln Hg r ns fuel logsf Hr0 Hl) as Hneg.
  apply Forall_map. revert Hneg. apply Forall_impl.
  intros v (x & -> & Hx). rewrite mlxp_cell_Fin.
  exists (- x / ln 10). split; [reflexivity|].
  apply Rdiv_lt_0_compat; [lra | apply ln_10_pos].
Qed.

Lemma mlxp_cells_positive_witness :
  exists fuel t,
    mlxp_gamma_poisson gammaln_int fuel
      (mkDataFrame ["c1"%string; "c2"%string] ["a"%string; "b"%string]
                   (map (map of_nat) [[0; 3]; [7; 1]]%nat))
      (map Fin [1; 5 / 2]) = Done t /\
    Forall (Forall (fun v => exists x, v = Fin x /\ 0 < x)) (values t).
Proof.
  assert (Hpos : Forall (fun r => 0 < r) [1; 5 / 2])
    by (repeat constructor; lra).
  destruct (mlxp_gamma_poisson_returns gammaln_int gammaln_int_fact
              ["c1"%string; "c2"%string] ["a"%string; "b"%string]
              [[0; 3]; [7; 1]]%nat [1; 5 / 2]
              (list_max (map iterations_bound [1; 5 / 2]))
              eq_refl eq_refl Hpos (le_n _))
    as [t Ht].
  exists (list_max (map iterations_bound [1; 5 / 2])), t.
  split; [exact Ht|].
  exact (mlxp_cells_positive gammaln_int gammaln_int_fact _ _ _ _ _ t Hpos Ht).
Defined.

Lemma mlxp_rows_index_error (gammaln : num -> num)
    (Hg : forall n : nat, gammaln (Fin (INR n + 1)) = Fin (ln (INR (fact n))))
    (fuel : nat) (rates : list num) :
  forall nss i,
    (i <= List.length rates)%nat ->
    (List.length rates < i + List.length nss)%nat ->
    (forall k, (i + k < List.length rates)%nat ->
       exists r, nth_error rates (i + k) = Some (Fin r) /\ 0 < r /\
                 (iterations_bound r <= fuel)%nat) ->
    mlxp_rows gammaln fuel (map (map of_nat) nss) rates i = Raised IndexError.
Proof.
  induction nss as [|ns nss IH]; intros i Hi Hlen H; cbn [map mlxp_rows].
  - cbn [List.length] in Hlen. lia.
  - cbn [List.length] in Hlen.
    destruct (Nat.eq_dec i (List.length rates)) as [Heq | Hne].
    + assert (Hnone : nth_error rates i = None)
        by (apply nth_error_None; lia).
      now rewrite Hnone.
    + destruct (H 0%nat ltac:(lia)) as (r & Hr & Hpos & Hfuel).
      rewrite Nat.add_0_r in Hr. rewrite Hr.
      destruct (poisson_logsf_returns gammaln Hg ns r Hpos)
        as (j & Hj & Hret & _).
      rewrite (poisson_logsf_fuel_mono gammaln j fuel _ _ _ ltac:(lia) Hret).
      cbn [bind]. rewrite (IH (S i)); [reflexivity | lia | lia |].
      intros k Hk. replace (S i + k)%nat with (i + S k)%nat by lia.
      apply H. lia.
Qed.

(** X7. With fewer rates than rows [mlxp_gamma_poisson] raises IndexError,
    and only after it has computed the rows that do have a rate: on natural
    counts and positive rates, once the fuel covers those rows the outcome
    is the exception, and no table is returned. *)
Theorem mlxp_too_few_rates_raises (gammaln : num -> num)
    (Hg : forall n : nat, gammaln (Fin (INR n + 1)) = Fin (ln (INR (fact n))))
    (idx cols : list string) (nss : list (list nat)) (rs : list R)
    (fuel : nat) :
  Forall (fun r => 0 < r) rs ->
  (List.length rs < List.length nss)%nat ->
  (list_max (map iterations_bound rs) <= fuel)%nat ->
  mlxp_gamma_poisson gammaln fuel
    (mkDataFrame idx cols (map (map of_nat) nss)) (map Fin rs)
  = Raised IndexError.
Proof.
  intros Hpos Hlen Hfuel. unfold mlxp_gamma_poisson. cbn [values].
  rewrite (mlxp_rows_index_error gammaln Hg fuel (map Fin rs) nss 0).
  - reflexivity.
  - lia.
  - rewrite length_map. cbn [Nat.add]. exact Hlen.
  - intros k Hk. cbn [Nat.add] in *. rewrite length_map in Hk.
    destruct (nth_error rs k) as [r|] eqn:Hr;
      [|apply nth_error_None in Hr; lia].
    exists r. rewrite nth_error_map, Hr. split; [reflexivity|].
    apply nth_error_In in Hr. split.
    + rewrite Forall_forall in Hpos. now apply Hpos.
    + apply list_max_le in Hfuel. rewrite Forall_forall in Hfuel.
      apply Hfuel. now apply in_map.
Qed.

Lemma mlxp_too_few_rates_raises_witness :
  mlxp_gamma_poisson gammaln_int (list_max (map iterations_bound [1]))
    (mkDataFrame ["c1"%string; "c2"%string] ["a"%string; "b"%string]
                 (map (map of_nat) [[0; 3]; [7; 1]]%nat))
    (map Fin [1])
  = Raised IndexError.
Proof.
  apply (mlxp_too_few_rates_raises gammaln_int gammaln_int_fact).
  - repeat constructor; lra.
  - cbn [List.length]. lia.
  - apply le_n.
Defined.

Lemma mlxp_rows_surplus_rates (gammaln : num -> num) (fuel : nat)
    (rates extra : list num) :
  forall rows i,
    (i + List.length rows <= List.length rates)%nat ->
    mlxp_rows gammaln fuel rows (rates ++ extra) i
    = mlxp_rows gammaln fuel rows rates i.
Proof.
  induction rows as [|row rows IH]; intros i Hlen; cbn [mlxp_rows].
  - reflexivity.
  - cbn [List.length] in Hlen. rewrite nth_error_app1 by lia.
    destruct (nth_error rates i) as [rate|]; [|reflexivity].
    rewrite IH by lia. reflexivity.
Qed.

(** X8. Rates beyond the number of rows are never read: appending entries
    to a rate vector that already has one rate per row leaves the outcome of
    [mlxp_gamma_poisson] unchanged. *)
Theorem mlxp_ignores_surplus_rates (gammaln : num -> num) (fuel : nat)
    (counts : DataFrame) (rates extra : list num) :
  (List.length (values counts) <= List.length rates)%nat ->
  mlxp_gamma_poisson gammaln fuel counts (rates ++ extra)
  = mlxp_gamma_poisson gammaln fuel counts rates.
Proof.
  intros Hlen. unfold mlxp_gamma_poisson.
  now rewrite mlxp_rows_surplus_rates by (cbn [Nat.add]; exact Hlen).
Qed.

Lemma mlxp_ignores_surplus_rates_witness :
  mlxp_gamma_poisson gammaln_int 50
    (mkDataFrame ["c1"%string] ["a"%string; "b"%string]
                 [[of_nat 0; of_nat 3]])
    ([Fin 1] ++ [NaN; Fin 7])
  = mlxp_gamma_poisson gammaln_int 50
      (mkDataFrame ["c1"%string] ["a"%string; "b"%string]
                   [[of_nat 0; of_nat 3]])
      [Fin 1].
Proof.
  apply (mlxp_ignores_surplus_rates gammaln_int 50
           (mkDataFrame ["c1"%string] ["a"%string; "b"%string]
                        [[of_nat 0; of_nat 3]])
           [Fin 1] [NaN; Fin 7]).
  cbn [values List.length]. lia.
Defined.

(* ================================================================= *)
(** ** Further properties of the posterior rate estimator *)


Lemma fold_fadd_nonneg (l : list num) :
  Forall (fun v => exists x, v = Fin x /\ 0 <= x) l ->
  forall acc, 0 <= acc ->
    exists s, fold_left fadd l (Fin acc) = Fin s /\ 0 <= s.
Proof.
  induction 1 as [|v l (x & -> & Hx) _ IH]; intros acc Hacc; cbn [fold_left].
  - now exists acc.
  - cbn [fadd]. apply IH. lra.
Qed.











(* ================================================================= *)
(** ** A NaN in the count table *)

Lemma fadd_nan_r (a : num) : fadd a NaN = NaN.
Proof. destruct a; reflexivity. Qed.

Lemma fold_fadd_from_nan (l : list num) : fold_left fadd l NaN = NaN.
Proof. induction l as [|v l IH]; cbn [fold_left fadd]; auto. Qed.

Lemma fold_fadd_nan (l : list num) :
  In NaN l -> forall acc, fold_left fadd l acc = NaN.
Proof.
  induction l as [|v l IH]; intros Hin acc; [contradiction|].
  cbn [fold_left]. destruct Hin as [-> | Hin].
  - rewrite fadd_nan_r. apply fold_fadd_from_nan.
  - now apply IH.
Qed.

(** A NaN cell is never masked, so it reaches the sum of its row. *)
Lemma ma_sum_nan (upper_bound : num) (row : list num) :
  In NaN row -> ma_sum upper_bound row = NaN.
Proof.
  intros Hin. unfold ma_sum, fsum. apply fold_fadd_nan.
  unfold filled0. apply in_map_iff. exists NaN. split; [|assumption].
  unfold masked_greater, fgt. destruct upper_bound; reflexivity.
Qed.

Lemma posterior_rate_nan (counts : DataFrame) (alpha beta upper_bound : num)
    (k : nat) (row : list num) :
  nth_error (values counts) k = Some row ->
  In NaN row ->
  nth_error (gamma_poisson_posterior_rates counts alpha beta upper_bound) k
  = Some NaN.
Proof.
  intros Hrow Hin. unfold gamma_poisson_posterior_rates.
  rewrite nth_error_map, Hrow. cbn [option_map]. f_equal.
  rewrite ma_sum_nan by assumption. rewrite fadd_nan_r. reflexivity.
Qed.

(** A NaN rate on a non-empty row stalls the loop over the rows. *)
Lemma mlxp_rows_nan_rate (gammaln : num -> num) (fuel : nat)
    (rates : list num) :
  forall rows i k row,
    (i + List.length rows <= List.length rates)%nat ->
    nth_error rows k = Some row ->
    row <> [] ->
    nth_error rates (i + k) = Some NaN ->
    mlxp_rows gammaln fuel rows rates i = Timeout.
Proof.
  induction rows as [|r0 rows IH]; intros i k row Hlen Hrow Hne Hrate.
  - destruct k; discriminate Hrow.
  - cbn [mlxp_rows]. cbn [List.length] in Hlen.
    destruct (nth_error rates i) as [rate|] eqn:Hi;
      [|apply nth_error_None in Hi; lia].
    destruct k as [|k]; cbn [nth_error] in Hrow.
    + injection Hrow as ->. rewrite Nat.add_0_r, Hi in Hrate.
      injection Hrate as ->.
      now rewrite poisson_logsf_nan_rate.
    + pose proof (poisson_logsf_not_raised gammaln fuel r0 rate) as Hnr.
      destruct (poisson_logsf gammaln fuel r0 rate) as [logsf|e|];
        cbn [bind]; [| now contradiction (Hnr e) | reflexivity].
      rewrite (IH (S i) k row); [reflexivity | lia | assumption | assumption |].
      now replace (S i + k)%nat with (i + S k)%nat by lia.
Qed.

(** X11. A NaN cell in the count table is never masked: the posterior
    rate of its row is NaN whatever the prior and the upper bound, and
    [gamma_poisson_model] then never returns, whatever the minimizer and the
    percentile function do: the loop of [poisson_logsf] on that row cannot
    pass its convergence test.  The source does not validate the table. *)
Theorem gamma_poisson_model_nan_cell_never_returns (gammaln : num -> num)
    (minimize : (num * num -> num) -> num * num -> list bound -> OptimizeResult)
    (scoreatpercentile : list num -> num -> num)
    (fuel : nat) (counts : DataFrame) (trim_percentile : num)
    (k : nat) (row : list num) :
  nth_error (values counts) k = Some row ->
  In NaN row ->
  (forall alpha beta upper_bound,
      nth_error (gamma_poisson_posterior_rates counts alpha beta upper_bound) k
      = Some NaN) /\
  gamma_poisson_model gammaln minimize scoreatpercentile fuel counts
    trim_percentile = Timeout.
Proof.
  intros Hrow Hin. split.
  - intros alpha beta upper_bound. now apply posterior_rate_nan with row.
  - unfold gamma_poisson_model. rewrite fit_gamma_eq.
    destruct (opt_x _) as [alpha beta]. cbn [bind].
    unfold mlxp_gamma_poisson.
    rewrite (mlxp_rows_nan_rate gammaln fuel _ (values counts) 0 k row).
    + reflexivity.
    + unfold gamma_poisson_posterior_rates. rewrite length_map.
      cbn [Nat.add]. apply le_n.
    + assumption.
    + intros ->. contradiction.
    + cbn [Nat.add]. now apply posterior_rate_nan with row.
Qed.

Lemma gamma_poisson_model_nan_cell_never_returns_witness :
  gamma_poisson_model gammaln_int minimize_gives_up (fun _ p => p) 100
    (mkDataFrame ["c1"%string; "c2"%string] ["a"%string; "b"%string]
                 [[Fin 1; Fin 2]; [Fin 3; NaN]])
    default_trim_percentile = Timeout.
Proof.
  apply (gamma_poisson_model_nan_cell_never_returns gammaln_int
           minimize_gives_up (fun _ p => p) 100
           (mkDataFrame ["c1"%string; "c2"%string] ["a"%string; "b"%string]
                        [[Fin 1; Fin 2]; [Fin 3; NaN]])
           default_trim_percentile 1 [Fin 3; NaN]).
  - reflexivity.
  - cbn [In]. auto.
Defined.

(* ================================================================= *)
(** ** The objective of the prior fit on a sample of zeros *)

Lemma filter_positive_zeros (m : nat) :
  filter (fun v => fgt v (Fin 0)) (repeat (Fin 0) m) = [].
Proof.
  induction m as [|m IH]; cbn [repeat filter]; [reflexivity|].
  unfold fgt at 1. cbn [flt]. now rewrite Rltb_false by lra.
Qed.

(** X12. On a sample of m >= 1 zeros [fit_gamma] takes the count m and the
    sums s = sl = 0, and the objective it hands to the minimizer has no
    minimum inside the box of the bounds: along alpha = 1 it is -m*log(beta),
    below any given number for beta large enough.  (The count m is [len(x)];
    with the count of the positive entries the objective would be flat.) *)
Theorem fit_gamma_all_zero_sample_unbounded (gammaln : num -> num)
    (Hg : forall n : nat, gammaln (Fin (INR n + 1)) = Fin (ln (INR (fact n))))
    (m : nat) (M : R) :
  (1 <= m)%nat ->
  gamma_stats (repeat (Fin 0) m) = (of_nat m, Fin 0, Fin 0) /\
  (forall b, 0 < b ->
     ll gammaln (of_nat m) (Fin 0) (Fin 0) (Fin 1, Fin b)
     = Fin (- (INR m * ln b))) /\
  exists b v,
    / 2 ^ 1074 <= 1 /\ / 2 ^ 1074 <= b /\
    ll gammaln (of_nat m) (Fin 0) (Fin 0) (Fin 1, Fin b) = Fin v /\
    v < M.
Proof.
  intros Hm.
  assert (Hll : forall b, 0 < b ->
            ll gammaln (of_nat m) (Fin 0) (Fin 0) (Fin 1, Fin b)
            = Fin (- (INR m * ln b))).
  { intros b Hb. unfold of_nat.
    rewrite (ll_Fin gammaln (INR m) 0 0 1 b 0 Hb).
    - f_equal. ring.
    - replace 1 with (INR 0 + 1) by (cbn [INR]; lra).
      rewrite Hg. cbn [fact INR]. now rewrite ln_1. }
  assert (Htiny : / 2 ^ 1074 <= 1).
  { rewrite <- Rinv_1. apply Rinv_le_contravar; [lra|].
    apply pow_R1_Rle. lra. }
  split; [|split; [exact Hll|]].
  - unfold gamma_stats. rewrite filter_positive_zeros, repeat_length.
    reflexivity.
  - exists (exp (Rabs M + 1)), (- (INR m * (Rabs M + 1))).
    pose proof (Rabs_pos M) as Habs.
    assert (Hb1 : 1 <= exp (Rabs M + 1)).
    { pose proof (exp_ineq1_le (Rabs M + 1)). lra. }
    split; [exact Htiny|]. split; [lra|]. split.
    + rewrite Hll by lra. now rewrite ln_exp.
    + assert (Hm1 : 1 <= INR m) by (apply (le_INR 1); exact Hm).
      assert (HM : - Rabs M <= M).
      { unfold Rabs. destruct (Rcase_abs M); lra. }
      nra.
Qed.

Lemma fit_gamma_all_zero_sample_unbounded_witness :
  exists b v,
    / 2 ^ 1074 <= 1 /\ / 2 ^ 1074 <= b /\
    ll gammaln_int (of_nat 3) (Fin 0) (Fin 0) (Fin 1, Fin b) = Fin v /\
    v < - 1000000.
Proof.
  exact (proj2 (proj2 (fit_gamma_all_zero_sample_unbounded gammaln_int
                         gammaln_int_fact 3 (- 1000000) ltac:(lia)))).
Defined.

(* ================================================================= *)
(** ** The truncation error past the mode *)

Lemma Un_cv_const (B : R) : Un_cv (fun _ : nat => B) B.
Proof.
  intros eps Heps. exists 0%nat. intros n _.
  unfold Rdist. rewrite Rminus_diag, Rabs_R0. exact Heps.
Qed.

(** A bound of all partial sums of the Poisson probabilities is at least 1. *)
Lemma pmf_total_le (rate B : R) :
  (forall N, pmf_sum rate 0 N <= B) -> 1 <= B.
Proof.
  intros H. pose proof (exp_pos rate) as He.
  assert (Hlim : exp rate <= exp rate * B).
  { apply Rle_cv_lim with (Un := fun N => sum_f_R0 (exp_term rate) N)
                          (Vn := fun _ : nat => exp rate * B).
    - intros N. specialize (H N). rewrite pmf_sum_exp_series in H.
      apply Rmult_le_compat_l with (r := exp rate) in H; [|lra].
      rewrite <- Rmult_assoc, <- exp_plus in H.
      replace (rate + - rate) with 0 in H by ring.
      rewrite exp_0 in H. lra.
    - exact (proj2_sig (exist_exp rate)).
    - apply Un_cv_const. }
  nra.
Qed.

Lemma pmf_sum_split (rate : R) (k0 j d : nat) :
  pmf_sum rate k0 (j + d)
  = pmf_sum rate k0 j + pmf_sum rate (k0 + j) d - pmfR rate (k0 + j).
Proof.
  induction d as [|d IH].
  - rewrite Nat.add_0_r. cbn [pmf_sum]. ring.
  - replace (j + S d)%nat with (S (j + d)) by lia. cbn [pmf_sum].
    rewrite IH. replace (k0 + j + S d)%nat with (k0 + S (j + d))%nat by lia.
    ring.
Qed.

(** Past the mode the terms fall at least geometrically. *)
Lemma pmf_sum_geometric (rate : R) (K d : nat) :
  0 < rate -> rate < INR (S K) ->
  pmf_sum rate K d * (INR (S K) - rate) <= pmfR rate K * INR (S K).
Proof.
  intros H HK.
  assert (Hinv : pmf_sum rate K d * (INR (S K) - rate) + pmfR rate (K + d) * rate
                 <= pmfR rate K * INR (S K)).
  { induction d as [|d IH]; cbn [pmf_sum].
    - rewrite Nat.add_0_r. lra.
    - replace (K + S d)%nat with (S (K + d)) by lia.
      assert (Hstep : pmfR rate (S (K + d)) * INR (S K)
                      <= pmfR rate (K + d) * rate).
      { rewrite pmfR_S.
        pose proof (pmfR_pos rate (K + d) H) as Hp.
        assert (Hx : 0 < INR (S (K + d))) by (apply lt_0_INR; lia).
        assert (Hle : INR (S K) <= INR (S (K + d))) by (apply le_INR; lia).
        assert (Hk : 0 < INR (S K)) by lra.
        assert (Hq : / INR (S (K + d)) * INR (S K) <= 1).
        { apply Rmult_le_reg_l with (r := INR (S (K + d))); [assumption|].
          rewrite <- Rmult_assoc, Rinv_r by lra. lra. }
        assert (Hpr : 0 <= pmfR rate (K + d) * rate) by nra.
        replace (pmfR rate (K + d) * rate / INR (S (K + d)) * INR (S K))
          with (pmfR rate (K + d) * rate * (/ INR (S (K + d)) * INR (S K)))
          by (unfold Rdiv; ring).
        nra. }
      lra. }
  pose proof (pmfR_pos rate (K + d) H). nra.
Qed.

(** X13. Accuracy past the mode.  When a call on natural counts at a
    positive rate returns out of iteration j, and the last term summed for
    an element, k = count+1+j, is at or past the rate (rate < k+1), the
    tail probability that the truncation drops is small: the returned x
    satisfies exp(x) < 1 - CDF(count)
    <= exp(x) * (1 + (exp(0.0001) - 1) * rate / (k + 1 - rate)). *)
Theorem poisson_logsf_truncation_error (gammaln : num -> num)
    (Hg : forall n : nat, gammaln (Fin (INR n + 1)) = Fin (ln (INR (fact n))))
    (rate : R) (ns : list nat) (j : nat) (res : list num) (k n : nat) :
  0 < rate ->
  returns_after gammaln j (map of_nat ns) (Fin rate) res ->
  nth_error ns k = Some n ->
  rate < INR (n + j + 2) ->
  exists x,
    nth_error res k = Some (Fin x) /\
    exp x < 1 - cdfR rate n /\
    1 - cdfR rate n
    <= exp x * (1 + (exp (1 / 10000) - 1) * rate / (INR (n + j + 2) - rate)).
Proof.
  intros H Hret Hk Hlate.
  apply returns_after_iff in Hret. destruct Hret as (Hj & Hc & _ & ->).
  assert (Hcn : converged gammaln (Fin rate) (of_nat n) j = true).
  { unfold all_converged in Hc. rewrite forallb_forall in Hc.
    apply Hc. apply in_map. now apply nth_error_In with k. }
  exists (ln (pmf_sum rate (S n) j)).
  pose proof (pmf_sum_pos rate (S n) j H) as Hpos.
  split; [|split].
  - rewrite !nth_error_map, Hk. cbn [option_map]. now rewrite running_nat.
  - rewrite exp_ln by assumption. apply pmf_sum_below_tail; assumption.
  - rewrite exp_ln by assumption.
    destruct j as [|i]; [lia|].
    rewrite converged_nat in Hcn by assumption. apply Rltb_spec in Hcn.
    set (K := (S n + S i)%nat) in *.
    replace (n + S i + 2)%nat with (S K) in * by (unfold K; lia).
    set (S1 := pmf_sum rate (S n) (S i)) in *.
    set (T := pmfR rate K).
    assert (HT : T <= (exp (1 / 10000) - 1) * S1).
    { unfold S1, T, K in *. cbn [pmf_sum] in *.
      pose proof (pmf_sum_pos rate (S n) i H).
      pose proof (pmfR_pos rate (S n + S i) H).
      pose proof (exp_ineq1 (1 / 10000) ltac:(lra)). nra. }
    assert (HTpos : 0 < T) by (apply pmfR_pos; assumption).
    assert (Hgap : 0 < INR (S K) - rate) by lra.
    set (B := cdfR rate n + S1 + T * rate / (INR (S K) - rate)).
    assert (Hall : forall N, pmf_sum rate 0 N <= B).
    { intros N.
      apply Rle_trans with (pmf_sum rate 0 (n + S (S i + N))).
      - apply pmf_sum_extend; [assumption | lia].
      - rewrite <- pmf_sum_concat, pmf_sum_split. fold K. fold S1. fold T.
        pose proof (pmf_sum_geometric rate K N H Hlate) as Hgeo. fold T in Hgeo.
        unfold B, cdfR.
        assert (Htail : pmf_sum rate K N - T
                        <= T * rate / (INR (S K) - rate)).
        { apply Rmult_le_reg_r with (r := INR (S K) - rate); [assumption|].
          unfold Rdiv. rewrite Rmult_assoc, Rinv_l by lra. lra. }
        lra. }
    apply pmf_total_le in Hall. unfold B in Hall.
    assert (Hfrac : T * rate / (INR (S K) - rate)
                    <= S1 * ((exp (1 / 10000) - 1) * rate
                             / (INR (S K) - rate))).
    { unfold Rdiv. rewrite <- !Rmult_assoc.
      apply Rmult_le_compat_r; [left; now apply Rinv_0_lt_compat|].
      apply Rmult_le_compat_r; [lra|]. lra. }
    lra.
Qed.

Lemma poisson_logsf_truncation_error_witness :
  exists x,
    nth_error [Fin (ln (Q2R (69281 # 40320)) - Q2R 1)] 0 = Some (Fin x) /\
    exp x < 1 - cdfR (Q2R 1) 0 /\
    1 - cdfR (Q2R 1) 0
    <= exp x * (1 + (exp (1 / 10000) - 1) * Q2R 1
                    / (INR (0 + 7 + 2) - Q2R 1)).
Proof.
  assert (Hq : 0 < Q2R 1) by (rewrite Q2R_one; lra).
  apply (poisson_logsf_truncation_error gammaln_int gammaln_int_fact
           (Q2R 1) [0]%nat 7 _ 0 0 Hq).
  - apply (qpoisson_sound gammaln_int gammaln_int_fact 1 Hq 0 40 7
             (69281 # 40320)).
    vm_compute. reflexivity.
  - reflexivity.
  - rewrite Q2R_one. cbn [Nat.add INR]. lra.
Defined.
